(** * Worktree target resolution and porcelain parsing of ofsht

    A shallow embedding of the core of [src/domain/worktree.rs],
    [src/commands/common.rs] and [src/commands/rm.rs]:
    - Rust [&str]/[String] values are byte strings, modelled as [list ascii];
    - [str::lines] is modelled exactly ([split_inclusive('\n')], then one
      trailing "\n" and one trailing "\r" stripped);
    - [Path]/[PathBuf] values are modelled by their Unix component lists,
      which is what [Path]'s equality compares;
    - the filesystem, the working directory and [git rev-parse
      --show-toplevel] are explicit parameters of an environment record. *)

From Stdlib Require Import List Bool Arith Lia Ascii String Permutation.
Import ListNotations.

(* ------------------------------------------------------------------ *)
(** ** Byte strings *)

Definition str := list ascii.

(** String literal of the source. *)
Definition lit (s : string) : str := list_ascii_of_string s.

Definition nl : ascii := "010"%char.
Definition cr : ascii := "013"%char.
Definition slash : ascii := "/"%char.

Fixpoint str_eqb (a b : str) : bool :=
  match a, b with
  | [], [] => true
  | x :: a', y :: b' => Ascii.eqb x y && str_eqb a' b'
  | _, _ => false
  end.

(** [str::strip_prefix] *)
Fixpoint strip_prefix (p s : str) : option str :=
  match p with
  | [] => Some s
  | c :: p' =>
      match s with
      | [] => None
      | d :: s' => if Ascii.eqb c d then strip_prefix p' s' else None
      end
  end.

(** [str::starts_with] *)
Definition starts_with (s p : str) : bool :=
  match strip_prefix p s with Some _ => true | None => false end.

(** [str::strip_suffix] for a one-byte suffix *)
Definition strip_suffix_char (c : ascii) (s : str) : option str :=
  match rev s with
  | d :: r => if Ascii.eqb c d then Some (rev r) else None
  | [] => None
  end.

(** [str::split_inclusive('\n')]; [cur] is the current piece, reversed. *)
Fixpoint split_inclusive_nl (cur : str) (s : str) : list str :=
  match s with
  | [] => match cur with [] => [] | _ => [rev cur] end
  | c :: s' =>
      if Ascii.eqb c nl then rev (c :: cur) :: split_inclusive_nl [] s'
      else split_inclusive_nl (c :: cur) s'
  end.

(** The map applied by [str::lines] to every piece. *)
Definition strip_line_ending (l : str) : str :=
  match strip_suffix_char nl l with
  | None => l
  | Some l' => match strip_suffix_char cr l' with None => l' | Some l'' => l'' end
  end.

(** [str::lines] *)
Definition lines (s : str) : list str := map strip_line_ending (split_inclusive_nl [] s).

(** [chars().take(n).collect()] (on ASCII text). *)
Definition take_chars (n : nat) (s : str) : str := firstn n s.

(* ------------------------------------------------------------------ *)
(** ** Paths *)

(** [std::path::Component] on Unix (no [Prefix]). *)
Inductive component :=
| RootDir
| CurDir
| ParentDir
| Normal (s : str).

Definition path := list component.

Definition component_eqb (a b : component) : bool :=
  match a, b with
  | RootDir, RootDir | CurDir, CurDir | ParentDir, ParentDir => true
  | Normal x, Normal y => str_eqb x y
  | _, _ => false
  end.

Fixpoint path_eqb (a b : path) : bool :=
  match a, b with
  | [], [] => true
  | x :: a', y :: b' => component_eqb x y && path_eqb a' b'
  | _, _ => false
  end.

(** Pieces of a byte string between ['/'] separators. *)
Fixpoint split_slash_aux (cur : str) (s : str) : list str :=
  match s with
  | [] => [rev cur]
  | c :: s' =>
      if Ascii.eqb c slash then rev cur :: split_slash_aux [] s'
      else split_slash_aux (c :: cur) s'
  end.

Definition split_slash (s : str) : list str := split_slash_aux [] s.

(** Components of the pieces after the first: empty pieces (repeated or
    trailing separators) and ["."] are normalised away. *)
Fixpoint components_of_pieces (ps : list str) : path :=
  match ps with
  | [] => []
  | p :: ps' =>
      if str_eqb p [] then components_of_pieces ps'
      else if str_eqb p (lit ".") then components_of_pieces ps'
      else if str_eqb p (lit "..") then ParentDir :: components_of_pieces ps'
      else Normal p :: components_of_pieces ps'
  end.

(** [Path::new(s).components()] on Unix: a leading ['/'] is [RootDir], a
    leading ["."] of a relative path is kept as [CurDir]. *)
Definition path_of_str (s : str) : path :=
  match s with
  | c :: rest =>
      if Ascii.eqb c slash then RootDir :: components_of_pieces (split_slash rest)
      else match split_slash s with
           | p :: ps => if str_eqb p (lit ".") then CurDir :: components_of_pieces ps
                        else components_of_pieces (p :: ps)
           | [] => []
           end
  | [] => []
  end.

(** [Path::is_absolute] on Unix. *)
Definition is_absolute (p : path) : bool :=
  match p with RootDir :: _ => true | _ => false end.

(** [Path::parent]: [None] when the path ends in the root or is empty. *)
Definition parent (p : path) : option path :=
  match rev p with
  | (Normal _ | CurDir | ParentDir) :: r => Some (rev r)
  | _ => None
  end.

(** [PathBuf::pop] *)
Definition pop (p : path) : path :=
  match parent p with Some q => q | None => p end.

(** [PathBuf::push] of one component: an absolute component replaces the
    path, a ["."] pushed after a non-empty path is normalised away. *)
Definition push (p : path) (c : component) : path :=
  match c with
  | RootDir => [RootDir]
  | CurDir => match p with [] => [CurDir] | _ => p end
  | _ => p ++ [c]
  end.

(** [PathBuf::join] / [push] of a whole path. *)
Definition join (p q : path) : path := fold_left push q p.

(** [Path::file_name] *)
Definition file_name (p : path) : option str :=
  match rev p with Normal s :: _ => Some s | _ => None end.

(** [normalize_path_lexically] (worktree.rs); the same loop is inlined in
    [canonicalize_allow_missing] (common.rs). *)
Definition normalize_step (acc : path) (c : component) : path :=
  match c with
  | CurDir => acc
  | ParentDir => pop acc
  | _ => push acc c
  end.

Definition normalize_path_lexically (p : path) : path := fold_left normalize_step p [].

(* ------------------------------------------------------------------ *)
(** ** The environment read by the commands *)

Record env := {
  (** [std::env::current_dir()], [None] when it fails *)
  env_cwd : option path;
  (** [Path::canonicalize]: [None] when the path does not exist *)
  env_canonicalize : path -> option path;
  (** trimmed stdout of [git rev-parse --show-toplevel], [None] when the
      command cannot run or fails *)
  env_toplevel : option str
}.

Section Canonicalize.

Variable fs : path -> option path.

(** The upward walk of [canonicalize_allow_missing]; [r] is the current
    path reversed and [tail] the recorded file names, innermost first. *)
Fixpoint walk_up (r : list component) (tail : list str) (normalized : path) : path :=
  match r with
  | c :: r' =>
      match c with
      | RootDir => normalized
      | _ =>
          let tail' := match c with Normal n => tail ++ [n] | _ => tail end in
          match fs (rev r') with
          | Some canonical_parent =>
              fold_left (fun res n => push res (Normal n)) (rev tail') canonical_parent
          | None => walk_up r' tail' normalized
          end
      end
  | [] => normalized
  end.

End Canonicalize.

(** [canonicalize_allow_missing] (common.rs) *)
Definition canonicalize_allow_missing (e : env) (p : path) : path :=
  let absolute_path :=
    if is_absolute p then p
    else match env_cwd e with Some cwd => join cwd p | None => p end in
  let normalized := normalize_path_lexically absolute_path in
  match env_canonicalize e normalized with
  | Some canonical => canonical
  | None => walk_up (env_canonicalize e) (rev normalized) [] normalized
  end.

(** Shape of the component list of a parsed path: an optional leading
    [RootDir] or [CurDir], then only [ParentDir] and [Normal] components. *)
Definition inner_component (c : component) : bool :=
  match c with Normal _ | ParentDir => true | RootDir | CurDir => false end.

Definition wf_path (p : path) : bool :=
  match p with
  | RootDir :: r | CurDir :: r => forallb inner_component r
  | r => forallb inner_component r
  end.

(* ------------------------------------------------------------------ *)
(** ** Worktree root *)

(** The zip loop with [break] of [calculate_worktree_root_from_paths]. *)
Fixpoint common_prefix_len (a b : path) : nat :=
  match a, b with
  | x :: a', y :: b' => if component_eqb x y then S (common_prefix_len a' b') else 0
  | _, _ => 0
  end.

(** [calculate_worktree_root_from_paths] (worktree.rs) *)
Definition calculate_worktree_root_from_paths (worktree_paths : list path) : option path :=
  match worktree_paths with
  | [] => None
  | [p] => parent p
  | first_components :: rest =>
      let common_depth :=
        fold_left (fun d q => Nat.min d (common_prefix_len first_components q))
                  rest (List.length first_components) in
      if common_depth =? 0 then None
      else Some (fold_left push (firstn common_depth first_components) [])
  end.

(** The spec's reading of the worktree root: the longest component prefix
    shared by all paths. *)
Definition is_prefix (q p : path) : Prop := exists r, p = q ++ r.

Definition common_prefix (q : path) (ps : list path) : Prop :=
  forall p, In p ps -> is_prefix q p.

(* ------------------------------------------------------------------ *)
(** ** Porcelain parsers (worktree.rs) *)

Record worktree_entry := mk_entry {
  we_path : str;
  we_branch : option str;
  we_hash : str;
  we_is_active : bool
}.

Record simple_worktree_entry := mk_simple {
  se_path : str;
  se_branch : option str
}.

Definition unknown_hash : str := lit "(unknown)".

(** [branch_ref.strip_prefix("refs/heads/").unwrap_or(branch_ref)] *)
Definition strip_refs_heads (branch_ref : str) : str :=
  match strip_prefix (lit "refs/heads/") branch_ref with
  | Some b => b
  | None => branch_ref
  end.

Definition is_empty (s : str) : bool := match s with [] => true | _ => false end.

Section Parse.

Variable fs : path -> option path.

(** [is_path_active] *)
Definition is_path_active (worktree_path : str) (canonical_active : option path) : bool :=
  match canonical_active with
  | Some active =>
      match fs (path_of_str worktree_path) with
      | Some canonical_worktree => path_eqb canonical_worktree active
      | None => path_eqb (path_of_str worktree_path) active
      end
  | None => false
  end.

(** The loop state of [parse_worktree_entries]. *)
Record parse_state := mk_pstate {
  ps_entries : list worktree_entry;
  ps_path : option str;
  ps_branch : option str;
  ps_hash : option str
}.

Definition parse_init : parse_state := mk_pstate [] None None None.

(** The entries after saving the worktree in progress, if any. *)
Definition save_current (canonical_active : option path) (st : parse_state)
  : list worktree_entry :=
  match ps_path st with
  | Some p =>
      let hash := match ps_hash st with Some h => h | None => unknown_hash end in
      ps_entries st ++ [mk_entry p (ps_branch st) hash (is_path_active p canonical_active)]
  | None => ps_entries st
  end.

(** One iteration of the [for line in output.lines()] loop. *)
Definition parse_line (canonical_active : option path) (st : parse_state) (line : str)
  : parse_state :=
  if starts_with line (lit "worktree ") then
    mk_pstate (save_current canonical_active st)
              (strip_prefix (lit "worktree ") line) None None
  else if starts_with line (lit "HEAD ") then
    match strip_prefix (lit "HEAD ") line with
    | Some full_hash =>
        mk_pstate (ps_entries st) (ps_path st) (ps_branch st) (Some (take_chars 8 full_hash))
    | None => st
    end
  else if starts_with line (lit "branch ") then
    match strip_prefix (lit "branch ") line with
    | Some branch_ref =>
        mk_pstate (ps_entries st) (ps_path st) (Some (strip_refs_heads branch_ref)) (ps_hash st)
    | None => st
    end
  else if is_empty line then
    match ps_path st with
    | Some _ => mk_pstate (save_current canonical_active st) None None None
    | None => st
    end
  else st.

(** [parse_worktree_entries] *)
Definition parse_worktree_entries (output : str) (active_path : option path)
  : list worktree_entry :=
  let canonical_active :=
    option_map (fun p => match fs p with Some c => c | None => p end) active_path in
  save_current canonical_active
    (fold_left (parse_line canonical_active) (lines output) parse_init).

End Parse.

(** The loop state of [parse_simple_worktree_entries]. *)
Record simple_state := mk_sstate {
  ss_entries : list simple_worktree_entry;
  ss_path : option str;
  ss_branch : option str
}.

Definition simple_save (st : simple_state) : list simple_worktree_entry :=
  match ss_path st with
  | Some p => ss_entries st ++ [mk_simple p (ss_branch st)]
  | None => ss_entries st
  end.

Definition simple_parse_line (st : simple_state) (line : str) : simple_state :=
  if starts_with line (lit "worktree ") then
    mk_sstate (simple_save st) (strip_prefix (lit "worktree ") line) None
  else if starts_with line (lit "branch ") then
    match strip_prefix (lit "branch ") line with
    | Some branch_ref => mk_sstate (ss_entries st) (ss_path st) (Some (strip_refs_heads branch_ref))
    | None => st
    end
  else if is_empty line then
    match ss_path st with
    | Some _ => mk_sstate (simple_save st) None None
    | None => st
    end
  else st.

(** [parse_simple_worktree_entries] *)
Definition parse_simple_worktree_entries (output : str) : list simple_worktree_entry :=
  simple_save (fold_left simple_parse_line (lines output) (mk_sstate [] None None)).

(** The (path, branch) projection of a full entry. *)
Definition simple_of_entry (e : worktree_entry) : simple_worktree_entry :=
  mk_simple (we_path e) (we_branch e).

Definition simple_of_state (st : parse_state) : simple_state :=
  mk_sstate (map simple_of_entry (ps_entries st)) (ps_path st) (ps_branch st).

(* ------------------------------------------------------------------ *)
(** ** Worktree lookups (common.rs) *)

(** The loop of [find_worktree_by_branch]: [current_path] and
    [worktree_index] are the loop variables, [return] ends the scan. *)
Fixpoint find_branch_loop (branch_name : str) (ls : list str)
    (current_path : option str) (worktree_index : nat) : option str :=
  match ls with
  | [] => None
  | line :: ls' =>
      if starts_with line (lit "worktree ") then
        find_branch_loop branch_name ls' (strip_prefix (lit "worktree ") line) (S worktree_index)
      else if starts_with line (lit "branch ") then
        match strip_prefix (lit "branch ") line with
        | Some branch_ref =>
            (* Skip main worktree (index 1) *)
            if (1 <? worktree_index) && str_eqb (strip_refs_heads branch_ref) branch_name
            then current_path
            else find_branch_loop branch_name ls' current_path worktree_index
        | None => find_branch_loop branch_name ls' current_path worktree_index
        end
      else if is_empty line then find_branch_loop branch_name ls' None worktree_index
      else find_branch_loop branch_name ls' current_path worktree_index
  end.

(** [find_worktree_by_branch] *)
Definition find_worktree_by_branch (output branch_name : str) : option str :=
  find_branch_loop branch_name (lines output) None 0.

(** The loop state of [parse_all_worktrees]. *)
Record all_state := mk_astate {
  as_main : str;
  as_worktrees : list (str * option str);
  as_index : nat;
  as_path : option str;
  as_branch : option str
}.

(** Saving the worktree in progress: index 1 is the main worktree. *)
Definition all_save (st : all_state) : str * list (str * option str) :=
  match as_path st with
  | Some p =>
      if as_index st =? 1 then (p, as_worktrees st)
      else (as_main st, as_worktrees st ++ [(p, as_branch st)])
  | None => (as_main st, as_worktrees st)
  end.

Definition all_parse_line (st : all_state) (line : str) : all_state :=
  if starts_with line (lit "worktree ") then
    let '(m, ws) := all_save st in
    mk_astate m ws (S (as_index st)) (strip_prefix (lit "worktree ") line) None
  else if starts_with line (lit "branch ") then
    match strip_prefix (lit "branch ") line with
    | Some branch_ref =>
        mk_astate (as_main st) (as_worktrees st) (as_index st) (as_path st)
                  (Some (strip_refs_heads branch_ref))
    | None => st
    end
  else if is_empty line then
    match as_path st with
    | Some _ => let '(m, ws) := all_save st in mk_astate m ws (as_index st) None None
    | None => st
    end
  else st.

(** [parse_all_worktrees]: (main path, non-main (path, branch) list). *)
Definition parse_all_worktrees (output : str) : str * list (str * option str) :=
  all_save (fold_left all_parse_line (lines output) (mk_astate [] [] 0 None None)).

(* ------------------------------------------------------------------ *)
(** ** Target resolution (common.rs) *)

(** The errors of [resolve_worktree_target]. *)
Inductive resolve_error :=
| GitFailure                (* [git rev-parse --show-toplevel] failed *)
| MainWorktreeTargeted      (* "Cannot remove main worktree" *)
| NotFound (name : str).    (* "Worktree not found: {name}" *)

Inductive result (A : Type) :=
| Ok (a : A)
| Err (e : resolve_error).
Arguments Ok {A} a.
Arguments Err {A} e.

(** [(canonical_path, worktree_path, branch_name, is_current_worktree)] *)
Definition resolved := (path * path * option str * bool)%type.

(** First element of a list satisfying [f] ([for ... { if ... break }]). *)
Fixpoint find_first {A} (f : A -> bool) (l : list A) : option A :=
  match l with
  | [] => None
  | x :: l' => if f x then Some x else find_first f l'
  end.

(** [resolve_worktree_target] *)
Definition resolve_worktree_target (e : env) (name list_stdout : str) : result resolved :=
  let canon := canonicalize_allow_missing e in
  let is_current_worktree_removal := str_eqb name (lit ".") in
  let current_path_opt :=
    if is_current_worktree_removal then
      match env_toplevel e with Some t => Ok (Some t) | None => Err GitFailure end
    else Ok None in
  match current_path_opt with
  | Err err => Err err
  | Ok current_path_opt =>
  let '(main_path, worktrees) := parse_all_worktrees list_stdout in
  if str_eqb name (lit "@") then Err MainWorktreeTargeted else
  let branch_match :=
    if negb is_current_worktree_removal && negb (str_eqb name (lit "@"))
    then find_worktree_by_branch list_stdout name else None in
  match current_path_opt with
  | Some current_path =>
      let canonical_current := canon (path_of_str current_path) in
      let canonical_main := canon (path_of_str main_path) in
      if path_eqb canonical_current canonical_main then Err MainWorktreeTargeted else
      let current_branch :=
        match find_first (fun pb => path_eqb (canon (path_of_str (fst pb))) canonical_current)
                         worktrees with
        | Some (_, b) => b
        | None => None
        end in
      Ok (canonical_current, path_of_str current_path, current_branch,
          is_current_worktree_removal)
  | None =>
      match branch_match with
      | Some p =>
          Ok (canon (path_of_str p), path_of_str p, Some name, is_current_worktree_removal)
      | None =>
          let canonical_input := canon (path_of_str name) in
          let canonical_main := canon (path_of_str main_path) in
          if path_eqb canonical_input canonical_main then Err MainWorktreeTargeted else
          match find_first (fun pb => path_eqb canonical_input (canon (path_of_str (fst pb))))
                           worktrees with
          | Some (p, b) => Ok (canonical_input, path_of_str p, b, is_current_worktree_removal)
          | None => Err (NotFound name)
          end
      end
  end
  end.

(* ------------------------------------------------------------------ *)
(** ** Batch removal ([cmd_rm_many], rm.rs) *)

(** [(canonical_path, worktree_path, branch_name)] *)
Definition removal := (path * path * option str)%type.

Definition removal_canonical (r : removal) : path := let '(c, _, _) := r in c.

(** The two warnings printed while resolving the targets. *)
Inductive rm_warning :=
| DuplicateSkipped (p : path)        (* "Duplicate target {} (skipping)" *)
| DuplicateAsCurrent (p : path).     (* "Duplicate target {} (treating as current worktree)" *)

(** [non_current_removals], [current_removal], [seen_paths] and the
    warnings emitted so far. *)
Record rm_queue := mk_queue {
  q_non_current : list removal;
  q_current : option removal;
  q_seen : list path;
  q_warnings : list rm_warning
}.

Definition rm_queue_init : rm_queue := mk_queue [] None [] [].

(** [seen_paths.contains(&canonical_path)] *)
Definition seen_contains (seen : list path) (c : path) : bool := existsb (path_eqb c) seen.

(** One iteration of [for target in &targets] (the resolution loop). *)
Definition rm_resolve_step (e : env) (list_stdout : str) (q : rm_queue) (target : str)
  : result rm_queue :=
  match resolve_worktree_target e target list_stdout with
  | Err err => Err err
  | Ok (canonical_path, worktree_path, branch_name, is_current) =>
      if is_current then
        if seen_contains (q_seen q) canonical_path then
          Ok (mk_queue
                (filter (fun r => negb (path_eqb (removal_canonical r) canonical_path))
                        (q_non_current q))
                (Some (canonical_path, worktree_path, branch_name))
                (q_seen q)
                (q_warnings q ++ [DuplicateAsCurrent canonical_path]))
        else
          Ok (mk_queue (q_non_current q) (Some (canonical_path, worktree_path, branch_name))
                       (q_seen q ++ [canonical_path]) (q_warnings q))
      else if seen_contains (q_seen q) canonical_path then
        Ok (mk_queue (q_non_current q) (q_current q) (q_seen q)
                     (q_warnings q ++ [DuplicateSkipped canonical_path]))
      else
        Ok (mk_queue (q_non_current q ++ [(canonical_path, worktree_path, branch_name)])
                     (q_current q) (q_seen q ++ [canonical_path]) (q_warnings q))
  end.

(** The resolution loop; [Err(e) => return Err(e)]. *)
Fixpoint rm_resolve_all (e : env) (list_stdout : str) (q : rm_queue) (targets : list str)
  : result rm_queue :=
  match targets with
  | [] => Ok q
  | t :: ts =>
      match rm_resolve_step e list_stdout q t with
      | Err err => Err err
      | Ok q' => rm_resolve_all e list_stdout q' ts
      end
  end.

(** Observable effects of the command. *)
Inductive rm_event :=
| Removed (worktree_path : path)
| PrintedMainPath (main_path : str).

Inductive rm_outcome :=
| RmOk
| RmResolveFailed (e : resolve_error)
| RmRemoveFailed (worktree_path : path).

Section Rm.

(** [remove_worktree_internal] (git, hooks): [true] when it returns [Ok]. *)
Variable remove_worktree_internal : path -> option str -> bool.

(** The execution loop over [non_current_removals] with [?]. *)
Fixpoint remove_all (rs : list removal) (log : list rm_event) : rm_outcome * list rm_event :=
  match rs with
  | [] => (RmOk, log)
  | (_, w, b) :: rs' =>
      if remove_worktree_internal w b then remove_all rs' (log ++ [Removed w])
      else (RmRemoveFailed w, log)
  end.

(** [cmd_rm_many] from the resolved list of targets on. *)
Definition cmd_rm_many (e : env) (list_stdout : str) (targets : list str)
  : rm_outcome * list rm_event :=
  match rm_resolve_all e list_stdout rm_queue_init targets with
  | Err err => (RmResolveFailed err, [])
  | Ok q =>
      match remove_all (q_non_current q) [] with
      | (RmOk, log) =>
          match q_current q with
          | None => (RmOk, log)
          | Some (_, w, b) =>
              if remove_worktree_internal w b
              then (RmOk, log ++ [Removed w; PrintedMainPath (fst (parse_all_worktrees list_stdout))])
              else (RmRemoveFailed w, log)
          end
      | failed => failed
      end
  end.

End Rm.

(** The canonical paths queued for removal: the current worktree first,
    then the others. *)
Definition queue_paths (q : rm_queue) : list path :=
  match q_current q with Some r => [removal_canonical r] | None => [] end
  ++ map removal_canonical (q_non_current q).

Definition component_eq_dec (a b : component) : {a = b} + {a <> b}.
Proof. decide equality. apply list_eq_dec, ascii_dec. Defined.

Definition path_eq_dec : forall a b : path, {a = b} + {a <> b} := list_eq_dec component_eq_dec.

(* ------------------------------------------------------------------ *)
(** ** More lookups of common.rs *)

(** The loop of [find_worktree_by_path]; [worktree_index] counts the
    [worktree] lines seen, [return] ends the scan. *)
Fixpoint find_path_loop (e : env) (target_path : path) (ls : list str)
    (worktree_index : nat) : option str :=
  match ls with
  | [] => None
  | line :: ls' =>
      if starts_with line (lit "worktree ") then
        let current_path := strip_prefix (lit "worktree ") line in
        let worktree_index := S worktree_index in
        (* Skip main worktree (index 1) *)
        if 1 <? worktree_index then
          match current_path with
          | Some p =>
              let canonical_target := canonicalize_allow_missing e target_path in
              let canonical_worktree := canonicalize_allow_missing e (path_of_str p) in
              if path_eqb canonical_target canonical_worktree then current_path
              else find_path_loop e target_path ls' worktree_index
          | None => find_path_loop e target_path ls' worktree_index
          end
        else find_path_loop e target_path ls' worktree_index
      else find_path_loop e target_path ls' worktree_index
  end.

(** [find_worktree_by_path] *)
Definition find_worktree_by_path (e : env) (output : str) (target_path : path) : option str :=
  find_path_loop e target_path (lines output) 0.

(** The loop of [is_main_worktree] (a [#[cfg(test)]] helper): the main
    path and branch so far, and [worktree_index]; the [break] is taken
    once past the main worktree with its path known. *)
Fixpoint is_main_loop (ls : list str) (main_path main_branch : option str)
    (worktree_index : nat) : option str * option str :=
  match ls with
  | [] => (main_path, main_branch)
  | line :: ls' =>
      let '(main_path', main_branch', worktree_index') :=
        if starts_with line (lit "worktree ") then
          (if S worktree_index =? 1 then strip_prefix (lit "worktree ") line else main_path,
           main_branch, S worktree_index)
        else if starts_with line (lit "branch ") && (worktree_index =? 1) then
          (main_path,
           match strip_prefix (lit "branch ") line with
           | Some branch_ref => Some (strip_refs_heads branch_ref)
           | None => main_branch
           end,
           worktree_index)
        else (main_path, main_branch, worktree_index) in
      if (1 <? worktree_index') && match main_path' with Some _ => true | None => false end
      then (main_path', main_branch')
      else is_main_loop ls' main_path' main_branch' worktree_index'
  end.

(** [opt.as_deref() == Some(s)] *)
Definition opt_str_is (o : option str) (s : str) : bool :=
  match o with Some x => str_eqb x s | None => false end.

(** [is_main_worktree] *)
Definition is_main_worktree (output path_or_branch : str) : bool :=
  if str_eqb path_or_branch (lit "@") then true
  else
    let '(main_path, main_branch) := is_main_loop (lines output) None None 0 in
    opt_str_is main_path path_or_branch || opt_str_is main_branch path_or_branch.

(* ------------------------------------------------------------------ *)
(** ** Completion of worktree names (cli.rs) *)

(** The loop state of [parse_worktree_list]: [branches],
    [worktree_index], [current_branch]. *)
Definition worktree_list_state := (list str * nat * option str)%type.

Definition worktree_list_step (st : worktree_list_state) (line : str) : worktree_list_state :=
  let '(branches, worktree_index, current_branch) := st in
  if starts_with line (lit "worktree ") then
    (* save the previous branch, skipping the first worktree *)
    (match current_branch with
     | Some b => if 0 <? worktree_index then branches ++ [b] else branches
     | None => branches
     end, S worktree_index, None)
  else if starts_with line (lit "branch ") then
    match strip_prefix (lit "branch ") line with
    | Some branch_ref => (branches, worktree_index, Some (strip_refs_heads branch_ref))
    | None => st
    end
  else if is_empty line then
    (match current_branch with
     | Some b => if 1 <? worktree_index then branches ++ [b] else branches
     | None => branches
     end, worktree_index, None)
  else st.

(** "Handle last worktree if exists" *)
Definition worktree_list_finish (st : worktree_list_state) : list str :=
  let '(branches, worktree_index, current_branch) := st in
  match current_branch with
  | Some b => if 1 <? worktree_index then branches ++ [b] else branches
  | None => branches
  end.

(** [parse_worktree_list] *)
Definition parse_worktree_list (output : str) : list str :=
  worktree_list_finish (fold_left worktree_list_step (lines output) ([], 0, None)).

(** [Path::strip_prefix]: component-wise. *)
Fixpoint strip_path_prefix (base p : path) : option path :=
  match base with
  | [] => Some p
  | c :: base' =>
      match p with
      | [] => None
      | d :: p' => if component_eqb c d then strip_path_prefix base' p' else None
      end
  end.

(** [calculate_relative_path] (worktree.rs): the remainder's components;
    the returned [String] is the display of this remainder. *)
Definition calculate_relative_path (worktree_path worktree_root : path) : option path :=
  strip_path_prefix worktree_root worktree_path.

(** The relative-path candidates of [list_git_worktrees] (cli.rs), in
    insertion order, before the [HashSet] and the prefix filter:
    [parse_worktree_entries(&stdout, None)], the non-main paths, their
    root, and the relative path of each non-main worktree under it. *)
Definition relative_path_candidates (fs : path -> option path) (stdout : str) : list path :=
  let entries := parse_worktree_entries fs stdout None in
  let worktree_paths := map (fun en => path_of_str (we_path en)) (skipn 1 entries) in
  match calculate_worktree_root_from_paths worktree_paths with
  | Some worktree_root =>
      flat_map (fun en => match calculate_relative_path (path_of_str (we_path en)) worktree_root with
                          | Some rel_path => [rel_path]
                          | None => []
                          end) (skipn 1 entries)
  | None => []
  end.

(* ------------------------------------------------------------------ *)
(** ** Template-based worktree root (worktree.rs) *)

(** [template.split(pat).next().unwrap_or("")] for a non-empty [pat]:
    the text before the first occurrence of [pat]. *)
Fixpoint before_pattern (pat s : str) : str :=
  match s with
  | [] => []
  | c :: s' => if starts_with s pat then [] else c :: before_pattern pat s'
  end.

Definition is_normal (c : component) : bool :=
  match c with Normal _ => true | _ => false end.

(** [calculate_branch_depth] *)
Definition calculate_branch_depth (template : str) : nat :=
  List.length (filter is_normal (path_of_str (before_pattern (lit "{branch}") template))).

(** [for _ in 0..depth { root = root.parent()?; }] *)
Fixpoint parent_n (depth : nat) (root : path) : option path :=
  match depth with
  | 0 => Some root
  | S depth' => match parent root with Some q => parent_n depth' q | None => None end
  end.

(** [calculate_worktree_root] *)
Definition calculate_worktree_root (worktree_path : path) (template : str) : option path :=
  parent_n (calculate_branch_depth template) worktree_path.

(* ------------------------------------------------------------------ *)
(** ** Observations of the batch removal *)

Definition removal_worktree (r : removal) : path := let '(_, w, _) := r in w.

(** The worktrees removed, in the order of the log. *)
Definition removed_paths (log : list rm_event) : list path :=
  flat_map (fun ev => match ev with Removed w => [w] | PrintedMainPath _ => [] end) log.

(** Every removal queued: the non-current ones, then the current one. *)
Definition queue_entries (q : rm_queue) : list removal :=
  q_non_current q ++ match q_current q with Some r => [r] | None => [] end.

(** The branch of a worktree as a list, as [parse_worktree_list] collects it. *)
Definition branch_list (o : option str) : list str :=
  match o with Some b => [b] | None => [] end.

(* ------------------------------------------------------------------ *)
(** ** Well-formed porcelain snapshots *)

(** One block of [git worktree list --porcelain]: a [worktree] line, an
    optional [HEAD] line and an optional [branch refs/heads/..] line in
    either order, then a blank line or nothing. *)
Record block := mk_block {
  b_path : str;
  b_head : option str;
  b_branch : option str;
  b_head_first : bool;
  b_blank : bool
}.

Definition worktree_line (p : str) : str := lit "worktree " ++ p.
Definition head_line (h : str) : str := lit "HEAD " ++ h.
Definition branch_line (n : str) : str := lit "branch refs/heads/" ++ n.

Definition opt_line (f : str -> str) (o : option str) : list str :=
  match o with Some x => [f x] | None => [] end.

Definition block_lines (b : block) : list str :=
  worktree_line (b_path b)
    :: (if b_head_first b
        then opt_line head_line (b_head b) ++ opt_line branch_line (b_branch b)
        else opt_line branch_line (b_branch b) ++ opt_line head_line (b_head b))
    ++ (if b_blank b then [[]] else []).

Definition porcelain_lines (bs : list block) : list str := List.concat (map block_lines bs).

(** The text: every line terminated by a newline, as git prints it. *)
Definition render_porcelain (bs : list block) : str :=
  List.concat (map (fun l => l ++ [nl]) (porcelain_lines bs)).

(** A line carries no line-ending byte. *)
Definition line_ok (l : str) : bool :=
  forallb (fun c => negb (Ascii.eqb c nl) && negb (Ascii.eqb c cr)) l.

Definition opt_ok (o : option str) : bool :=
  match o with Some x => line_ok x | None => true end.

Definition block_ok (b : block) : bool :=
  line_ok (b_path b) && opt_ok (b_head b) && opt_ok (b_branch b).

(** What a block stands for: (path, branch, hash). *)
Definition block_hash (b : block) : str :=
  match b_head b with Some h => take_chars 8 h | None => unknown_hash end.

Definition entry_fields (e : worktree_entry) : str * option str * str :=
  (we_path e, we_branch e, we_hash e).

Definition block_fields (b : block) : str * option str * str :=
  (b_path b, b_branch b, block_hash b).

Section BlockSemantics.

Variable fs : path -> option path.
Variable canonical_active : option path.

(** The state after the lines of one block. *)
Definition after_block (st : parse_state) (b : block) : parse_state :=
  let opened := mk_pstate (save_current fs canonical_active st) (Some (b_path b)) (b_branch b)
                          (option_map (take_chars 8) (b_head b)) in
  if b_blank b then mk_pstate (save_current fs canonical_active opened) None None None
  else opened.

Definition block_entry (b : block) : worktree_entry :=
  mk_entry (b_path b) (b_branch b) (block_hash b) (is_path_active fs (b_path b) canonical_active).

End BlockSemantics.

(** The block-level reading of [parse_all_worktrees]: the block at
    position [k] (from 1) is saved as main when [k = 1]. *)
Definition add_block (acc : str * list (str * option str)) (k : nat) (b : block)
  : str * list (str * option str) :=
  if k =? 1 then (b_path b, snd acc) else (fst acc, snd acc ++ [(b_path b, b_branch b)]).

Fixpoint add_blocks (acc : str * list (str * option str)) (k : nat) (bs : list block)
  : str * list (str * option str) :=
  match bs with
  | [] => acc
  | b :: bs' => add_blocks (add_block acc (S k) b) (S k) bs'
  end.

Definition all_after_block (st : all_state) (b : block) : all_state :=
  let '(m, ws) := all_save st in
  let opened := mk_astate m ws (S (as_index st)) (Some (b_path b)) (b_branch b) in
  if b_blank b then let '(m', ws') := all_save opened in mk_astate m' ws' (S (as_index st)) None None
  else opened.

(** The block-level reading of [find_worktree_by_branch]. *)
Definition branch_is (b : block) (name : str) : bool :=
  match b_branch b with Some n => str_eqb n name | None => false end.

Fixpoint find_branch_blocks (name : str) (bs : list block) (k : nat) : option str :=
  match bs with
  | [] => None
  | b :: bs' =>
      if (1 <? S k) && branch_is b name then Some (b_path b)
      else find_branch_blocks name bs' (S k)
  end.

(** The snapshot of the spec's end-to-end scenario. *)
Definition spec_snapshot : list block :=
  [mk_block (lit "/r/main") (Some (lit "1234567890abcdef1234567890abcdef")) (Some (lit "main")) true true;
   mk_block (lit "/r/wt/feature") (Some (lit "abcdef1234567890abcdef1234567890")) (Some (lit "feature")) true true].

(** The snapshot of the spec's resolver examples. *)
Definition feat_snapshot : list block :=
  [mk_block (lit "/r/main") (Some (lit "1234567890abcdef")) (Some (lit "main")) true true;
   mk_block (lit "/r/wt/feat") (Some (lit "abcdef1234567890")) (Some (lit "feat")) true true].

(** Branch [y] lives at /r/wt/x while the worktree at /r/y has branch [z]. *)
Definition collide_snapshot : list block :=
  [mk_block (lit "/r/main") (Some (lit "1111111122222222")) (Some (lit "main")) true true;
   mk_block (lit "/r/wt/x") (Some (lit "3333333344444444")) (Some (lit "y")) true true;
   mk_block (lit "/r/y") None (Some (lit "z")) false false].

(** A filesystem where nothing exists: [canonicalize_allow_missing] is then
    lexical normalisation of the absolute path. *)
Definition empty_env (cwd : str) (top : option str) : env :=
  {| env_cwd := Some (path_of_str cwd); env_canonicalize := fun _ => None; env_toplevel := top |}.

Example parse_spec_snapshot :
  map entry_fields (parse_worktree_entries (fun _ => None) (render_porcelain spec_snapshot) None)
  = [(lit "/r/main", Some (lit "main"), lit "12345678");
     (lit "/r/wt/feature", Some (lit "feature"), lit "abcdef12")].
Proof. vm_compute. reflexivity. Qed.

Example root_spec_snapshot :
  calculate_worktree_root_from_paths [path_of_str (lit "/r/wt/feature")]
  = Some (path_of_str (lit "/r/wt")).
Proof. vm_compute. reflexivity. Qed.

Example resolve_feat :
  resolve_worktree_target (empty_env (lit "/home/u") None) (lit "feat") (render_porcelain feat_snapshot)
  = Ok (path_of_str (lit "/r/wt/feat"), path_of_str (lit "/r/wt/feat"), Some (lit "feat"), false).
Proof. vm_compute. reflexivity. Qed.

Example resolve_at :
  resolve_worktree_target (empty_env (lit "/home/u") None) (lit "@") (render_porcelain feat_snapshot)
  = Err MainWorktreeTargeted.
Proof. vm_compute. reflexivity. Qed.

Example resolve_nope :
  resolve_worktree_target (empty_env (lit "/home/u") None) (lit "nope") (render_porcelain feat_snapshot)
  = Err (NotFound (lit "nope")).
Proof. vm_compute. reflexivity. Qed.

(* ================================================================== *)
(** * Lemmas *)

(** ** Byte strings and [lines] *)

Lemma ascii_eqb_refl (c : ascii) : Ascii.eqb c c = true.
Proof. apply Ascii.eqb_eq. reflexivity. Qed.

Lemma ascii_eqb_sym (a b : ascii) : Ascii.eqb a b = Ascii.eqb b a.
Proof.
  destruct (Ascii.eqb a b) eqn:E.
  - apply Ascii.eqb_eq in E. subst. now rewrite ascii_eqb_refl.
  - symmetry. apply Bool.not_true_iff_false. intro H.
    apply Ascii.eqb_eq in H. subst. now rewrite ascii_eqb_refl in E.
Qed.

Lemma str_eqb_eq (a b : str) : str_eqb a b = true <-> a = b.
Proof.
  revert b; induction a as [|x a IH]; intros [|y b]; simpl; split; intro H;
    try congruence.
  - apply andb_prop in H as [H1 H2]. apply Ascii.eqb_eq in H1.
    apply IH in H2. congruence.
  - injection H as -> ->. rewrite ascii_eqb_refl. simpl. now apply IH.
Qed.

Lemma str_eqb_refl (a : str) : str_eqb a a = true.
Proof. now apply str_eqb_eq. Qed.

Lemma strip_prefix_app (p s : str) : strip_prefix p (p ++ s) = Some s.
Proof. induction p as [|c p IH]; simpl; [reflexivity|now rewrite ascii_eqb_refl]. Qed.

Lemma strip_prefix_inv (p s r : str) : strip_prefix p s = Some r -> s = p ++ r.
Proof.
  revert s; induction p as [|c p IH]; intros s H; simpl in *.
  - congruence.
  - destruct s as [|d s]; [discriminate|].
    destruct (Ascii.eqb c d) eqn:E; [|discriminate].
    apply Ascii.eqb_eq in E. subst. f_equal. now apply IH.
Qed.

Lemma starts_with_app (p s : str) : starts_with (p ++ s) p = true.
Proof. unfold starts_with. now rewrite strip_prefix_app. Qed.

Lemma line_ok_app (a b : str) : line_ok (a ++ b) = line_ok a && line_ok b.
Proof. apply forallb_app. Qed.

Lemma line_ok_in (l : str) (c : ascii) :
  line_ok l = true -> In c l -> Ascii.eqb c nl = false /\ Ascii.eqb c cr = false.
Proof.
  intros H Hin. unfold line_ok in H. rewrite forallb_forall in H.
  specialize (H c Hin). apply andb_prop in H as [H1 H2].
  now apply negb_true_iff in H1, H2.
Qed.

Lemma split_inclusive_line (cur l rest : str) :
  line_ok l = true ->
  split_inclusive_nl cur (l ++ nl :: rest) = (rev cur ++ l ++ [nl]) :: split_inclusive_nl [] rest.
Proof.
  revert cur; induction l as [|c l IH]; intros cur H; cbn [split_inclusive_nl app].
  - rewrite ascii_eqb_refl. reflexivity.
  - assert (Hc : Ascii.eqb c nl = false) by (apply (line_ok_in (c :: l)); simpl; auto).
    rewrite Hc. rewrite IH.
    + simpl. now rewrite <- app_assoc.
    + simpl in H. now apply andb_prop in H as [_ H].
Qed.

Lemma strip_line_ending_ok (l : str) :
  line_ok l = true -> strip_line_ending (l ++ [nl]) = l.
Proof.
  intro H. unfold strip_line_ending.
  assert (E1 : strip_suffix_char nl (l ++ [nl]) = Some l).
  { unfold strip_suffix_char. rewrite rev_unit, ascii_eqb_refl, rev_involutive. reflexivity. }
  assert (E2 : strip_suffix_char cr l = None).
  { unfold strip_suffix_char. destruct (rev l) as [|d r] eqn:E; [reflexivity|].
    assert (Hd : In d l) by (apply in_rev; rewrite E; now left).
    destruct (line_ok_in l d H Hd) as [_ Hcr].
    now rewrite ascii_eqb_sym, Hcr. }
  now rewrite E1, E2.
Qed.

(** [lines] reads back the lines of a newline-terminated text. *)
Lemma lines_of_terminated (ls : list str) :
  forallb line_ok ls = true ->
  lines (List.concat (map (fun l => l ++ [nl]) ls)) = ls.
Proof.
  unfold lines. induction ls as [|l ls IH]; intro H; simpl; [reflexivity|].
  simpl in H. apply andb_prop in H as [Hl Hls].
  rewrite <- app_assoc. simpl.
  rewrite split_inclusive_line by exact Hl. simpl.
  rewrite strip_line_ending_ok by exact Hl.
  f_equal. now apply IH.
Qed.

Lemma block_lines_ok (b : block) :
  block_ok b = true -> forallb line_ok (block_lines b) = true.
Proof.
  destruct b as [p h br hf bl]; unfold block_ok, block_lines; cbn [b_path b_head b_branch b_head_first b_blank].
  intro H. apply andb_prop in H as [H Hbr]. apply andb_prop in H as [Hp Hh].
  assert (Hhl : forallb line_ok (opt_line head_line h) = true).
  { destruct h as [x|]; [|reflexivity]. cbn [opt_ok] in Hh. cbn [opt_line forallb].
    unfold head_line. rewrite line_ok_app, Hh. reflexivity. }
  assert (Hbl : forallb line_ok (opt_line branch_line br) = true).
  { destruct br as [x|]; [|reflexivity]. cbn [opt_ok] in Hbr. cbn [opt_line forallb].
    unfold branch_line. rewrite line_ok_app, Hbr. reflexivity. }
  cbn [forallb]. unfold worktree_line. rewrite line_ok_app, Hp.
  destruct hf, bl; rewrite !forallb_app, ?Hhl, ?Hbl; reflexivity.
Qed.

Lemma lines_render (bs : list block) :
  forallb block_ok bs = true -> lines (render_porcelain bs) = porcelain_lines bs.
Proof.
  intro H. apply lines_of_terminated. unfold porcelain_lines.
  induction bs as [|b bs IH]; [reflexivity|].
  cbn [forallb] in H. apply andb_prop in H as [Hb Hbs].
  cbn [map List.concat]. rewrite forallb_app, block_lines_ok by exact Hb. now apply IH.
Qed.

(** ** How each kind of porcelain line is dispatched *)

Section ParseFacts.

Variable fs : path -> option path.
Variable canonical_active : option path.


Lemma parse_worktree_line (st : parse_state) (p : str) :
  parse_line fs canonical_active st (worktree_line p) = mk_pstate (save_current fs canonical_active st) (Some p) None None.
Proof. reflexivity. Qed.

Lemma parse_head_line (st : parse_state) (h : str) :
  parse_line fs canonical_active st (head_line h)
  = mk_pstate (ps_entries st) (ps_path st) (ps_branch st) (Some (take_chars 8 h)).
Proof. reflexivity. Qed.

Lemma parse_branch_line (st : parse_state) (n : str) :
  parse_line fs canonical_active st (branch_line n) = mk_pstate (ps_entries st) (ps_path st) (Some n) (ps_hash st).
Proof. reflexivity. Qed.

Lemma parse_blank_line (st : parse_state) :
  parse_line fs canonical_active st []
  = match ps_path st with
    | Some _ => mk_pstate (save_current fs canonical_active st) None None None
    | None => st
    end.
Proof. reflexivity. Qed.

Lemma parse_block (st : parse_state) (b : block) (rest : list str) :
  fold_left (parse_line fs canonical_active) (block_lines b ++ rest) st
  = fold_left (parse_line fs canonical_active) rest (after_block fs canonical_active st b).
Proof.
  destruct b as [p h br hf bl]. unfold block_lines, after_block.
  cbn [b_path b_head b_branch b_head_first b_blank].
  rewrite <- app_comm_cons. cbn [fold_left]. rewrite parse_worktree_line.
  rewrite <- !app_assoc, !fold_left_app.
  destruct hf, h as [x|], br as [y|], bl;
    cbn [opt_line fold_left app option_map];
    rewrite ?parse_head_line, ?parse_branch_line, ?parse_head_line, ?parse_blank_line;
    reflexivity.
Qed.

Lemma save_after_block (st : parse_state) (b : block) :
  save_current fs canonical_active (after_block fs canonical_active st b)
  = save_current fs canonical_active st ++ [block_entry fs canonical_active b].
Proof.
  destruct b as [p h br hf bl]. unfold after_block, block_entry, block_hash.
  destruct bl, h; reflexivity.
Qed.

Lemma parse_blocks (bs : list block) (st : parse_state) :
  save_current fs canonical_active (fold_left (parse_line fs canonical_active) (porcelain_lines bs) st)
  = save_current fs canonical_active st ++ map (block_entry fs canonical_active) bs.
Proof.
  revert st; induction bs as [|b bs IH]; intro st.
  - now rewrite app_nil_r.
  - unfold porcelain_lines. cbn [map List.concat].
    rewrite parse_block. fold (porcelain_lines bs). rewrite IH, save_after_block.
    now rewrite <- app_assoc.
Qed.

End ParseFacts.

Lemma parse_worktree_entries_render (fs : path -> option path) (bs : list block)
    (active_path : option path) :
  forallb block_ok bs = true ->
  parse_worktree_entries fs (render_porcelain bs) active_path
  = map (block_entry fs (option_map (fun p => match fs p with Some c => c | None => p end)
                                    active_path)) bs.
Proof.
  intro H. unfold parse_worktree_entries. rewrite lines_render by exact H.
  now rewrite parse_blocks.
Qed.

(** ** The lightweight parser simulates the full one *)

Section SimpleSim.

Variable fs : path -> option path.
Variable canonical_active : option path.

Lemma simple_save_sim (st : parse_state) :
  simple_save (simple_of_state st) = map simple_of_entry (save_current fs canonical_active st).
Proof.
  destruct st as [es [p|] br h]; unfold simple_save, save_current, simple_of_state; cbn.
  - now rewrite map_app.
  - reflexivity.
Qed.

Lemma simple_parse_line_sim (st : parse_state) (line : str) :
  simple_parse_line (simple_of_state st) line
  = simple_of_state (parse_line fs canonical_active st line).
Proof.
  unfold simple_parse_line, parse_line.
  destruct (starts_with line (lit "worktree ")) eqn:W.
  - rewrite simple_save_sim. reflexivity.
  - destruct (starts_with line (lit "HEAD ")) eqn:Hd.
    + unfold starts_with in Hd.
      destruct (strip_prefix (lit "HEAD ") line) as [r|] eqn:E; [|discriminate].
      apply strip_prefix_inv in E. subst line. reflexivity.
    + destruct (starts_with line (lit "branch ")).
      * destruct (strip_prefix (lit "branch ") line); reflexivity.
      * destruct (is_empty line); [|reflexivity].
        destruct st as [es [p|] br h]; [|reflexivity].
        cbn [ps_path]. rewrite simple_save_sim. reflexivity.
Qed.

Lemma simple_fold_sim (ls : list str) (st : parse_state) :
  fold_left simple_parse_line ls (simple_of_state st)
  = simple_of_state (fold_left (parse_line fs canonical_active) ls st).
Proof.
  revert st; induction ls as [|l ls IH]; intro st; [reflexivity|].
  cbn [fold_left]. rewrite simple_parse_line_sim. apply IH.
Qed.

End SimpleSim.

(** ** Paths *)

Lemma component_eqb_refl (c : component) : component_eqb c c = true.
Proof. destruct c; simpl; auto using str_eqb_refl. Qed.

Lemma component_eqb_eq (a b : component) : component_eqb a b = true <-> a = b.
Proof.
  split; [|intros ->; apply component_eqb_refl].
  destruct a, b; simpl; intro H; try discriminate; try reflexivity.
  apply str_eqb_eq in H. now subst.
Qed.

Lemma path_eqb_eq (a b : path) : path_eqb a b = true <-> a = b.
Proof.
  revert b; induction a as [|x a IH]; intros [|y b]; simpl; split; intro H; try congruence.
  - apply andb_prop in H as [H1 H2]. apply component_eqb_eq in H1. apply IH in H2. congruence.
  - injection H as -> ->. rewrite component_eqb_refl. simpl. now apply IH.
Qed.

Lemma components_of_pieces_inner (ps : list str) :
  forallb inner_component (components_of_pieces ps) = true.
Proof.
  induction ps as [|q ps IH]; [reflexivity|]. simpl.
  repeat match goal with |- context [if str_eqb ?a ?b then _ else _] =>
    destruct (str_eqb a b) end; simpl; exact IH.
Qed.

Lemma wf_path_inner (r : path) : forallb inner_component r = true -> wf_path r = true.
Proof. destruct r as [|[] r]; simpl; auto; discriminate. Qed.

Lemma wf_path_of_str (s : str) : wf_path (path_of_str s) = true.
Proof.
  destruct s as [|c rest]; [reflexivity|]. unfold path_of_str.
  destruct (Ascii.eqb c slash).
  - apply components_of_pieces_inner.
  - destruct (split_slash (c :: rest)) as [|q ps]; [reflexivity|].
    destruct (str_eqb q (lit ".")).
    + apply components_of_pieces_inner.
    + apply wf_path_inner, components_of_pieces_inner.
Qed.

Lemma push_inner_fold (r acc : path) :
  forallb inner_component r = true -> fold_left push r acc = acc ++ r.
Proof.
  revert acc; induction r as [|c r IH]; intros acc H; simpl; [now rewrite app_nil_r|].
  apply andb_prop in H as [Hc Hr].
  rewrite IH by exact Hr. destruct c; try discriminate; simpl; now rewrite <- app_assoc.
Qed.

(** Pushing the components of a parsed path one by one rebuilds it. *)
Lemma push_all_wf (p : path) : wf_path p = true -> fold_left push p [] = p.
Proof.
  destruct p as [|c r]; [reflexivity|]. intro H.
  destruct c; simpl in H |- *; rewrite push_inner_fold by exact H; reflexivity.
Qed.

Lemma forallb_firstn {A} (f : A -> bool) (k : nat) (l : list A) :
  forallb f l = true -> forallb f (firstn k l) = true.
Proof.
  revert l; induction k as [|k IH]; intros [|x l] H; simpl in *; auto.
  apply andb_prop in H as [H1 H2]. rewrite H1. simpl. now apply IH.
Qed.

Lemma wf_path_firstn (k : nat) (p : path) : wf_path p = true -> wf_path (firstn k p) = true.
Proof.
  destruct k as [|k]; [reflexivity|]. destruct p as [|c r]; [reflexivity|].
  destruct c; simpl; intro H; apply forallb_firstn; exact H.
Qed.

(** ** Common prefixes *)

Lemma common_prefix_len_firstn (a b : path) (k : nat) :
  k <= common_prefix_len a b -> firstn k a = firstn k b.
Proof.
  revert b k; induction a as [|x a IH]; intros [|y b] k Hk; simpl in Hk;
    try (assert (k = 0) as -> by lia; reflexivity).
  destruct (component_eqb x y) eqn:E; [|assert (k = 0) as -> by lia; reflexivity].
  apply component_eqb_eq in E. subst y.
  destruct k as [|k]; [reflexivity|]. simpl. f_equal. apply IH. lia.
Qed.

Lemma prefix_le_common_prefix_len (q r1 r2 : path) :
  List.length q <= common_prefix_len (q ++ r1) (q ++ r2).
Proof.
  induction q as [|x q IH]; simpl; [lia|]. rewrite component_eqb_refl. lia.
Qed.

Lemma common_prefix_len_refl (a : path) : common_prefix_len a a = List.length a.
Proof. induction a as [|x a IH]; simpl; [reflexivity|]. now rewrite component_eqb_refl, IH. Qed.

Section FoldMin.

Variable f : path -> nat.

Lemma fold_min_le_init (l : list path) (init : nat) :
  fold_left (fun d q => Nat.min d (f q)) l init <= init.
Proof.
  revert init; induction l as [|x l IH]; intro init; simpl; [lia|].
  specialize (IH (Nat.min init (f x))). lia.
Qed.

Lemma fold_min_le_each (l : list path) (init : nat) (q : path) :
  In q l -> fold_left (fun d q => Nat.min d (f q)) l init <= f q.
Proof.
  revert init; induction l as [|x l IH]; intros init Hin; [destruct Hin|]. simpl.
  destruct Hin as [->|Hin].
  - pose proof (fold_min_le_init l (Nat.min init (f q))). lia.
  - now apply IH.
Qed.

Lemma fold_min_ge (l : list path) (init b : nat) :
  b <= init -> (forall q, In q l -> b <= f q) ->
  b <= fold_left (fun d q => Nat.min d (f q)) l init.
Proof.
  revert init; induction l as [|x l IH]; intros init Hi Hl; simpl; [exact Hi|].
  apply IH; [|intros q Hq; apply Hl; now right].
  specialize (Hl x (or_introl eq_refl)). lia.
Qed.

End FoldMin.

(** [calculate_worktree_root_from_paths] on two or more parsed paths is
    the longest common component prefix, or [None] when it is empty. *)
Lemma root_of_many (first second : path) (rest : list path) :
  wf_path first = true ->
  match calculate_worktree_root_from_paths (first :: second :: rest) with
  | Some r =>
      r <> [] /\ common_prefix r (first :: second :: rest) /\
      forall q, common_prefix q (first :: second :: rest) -> List.length q <= List.length r
  | None => forall q, common_prefix q (first :: second :: rest) -> q = []
  end.
Proof.
  intro Hwf. unfold calculate_worktree_root_from_paths.
  set (d := fold_left (fun d q => Nat.min d (common_prefix_len first q)) (second :: rest)
                      (List.length first)).
  assert (Hmax : forall q, common_prefix q (first :: second :: rest) -> List.length q <= d).
  { intros q Hq. apply fold_min_ge.
    - destruct (Hq first (or_introl eq_refl)) as [r ->]. rewrite length_app. lia.
    - intros p Hp. destruct (Hq first (or_introl eq_refl)) as [r1 ->].
      destruct (Hq p (or_intror Hp)) as [r2 ->]. apply prefix_le_common_prefix_len. }
  destruct (d =? 0) eqn:Hd.
  - apply Nat.eqb_eq in Hd. intros q Hq. specialize (Hmax q Hq).
    destruct q; [reflexivity|simpl in Hmax; lia].
  - apply Nat.eqb_neq in Hd.
    assert (Hle : d <= List.length first) by apply fold_min_le_init.
    rewrite push_all_wf by (apply wf_path_firstn; exact Hwf).
    assert (Hlen : List.length (firstn d first) = d) by (rewrite length_firstn; lia).
    split; [|split].
    + intro E. rewrite E in Hlen. simpl in Hlen. lia.
    + intros p [<-|Hp].
      * exists (skipn d first). symmetry. apply firstn_skipn.
      * rewrite (common_prefix_len_firstn first p d) by (apply fold_min_le_each; exact Hp).
        exists (skipn d p). symmetry. apply firstn_skipn.
    + intros q Hq. rewrite Hlen. now apply Hmax.
Qed.

(** ** Lexical normalisation *)

(** The shape of a normalised path: an optional root, then names. *)
Definition normal_shape (acc : path) : Prop :=
  exists (rooted : bool) (ns : list str),
    acc = (if rooted then [RootDir] else []) ++ map Normal ns.

Lemma pop_app_normal (l : path) (n : str) : pop (l ++ [Normal n]) = l.
Proof. unfold pop, parent. rewrite rev_unit, rev_involutive. reflexivity. Qed.

Lemma normalize_step_shape (acc : path) (c : component) :
  normal_shape acc -> normal_shape (normalize_step acc c).
Proof.
  intros (rooted & ns & ->). destruct c as [| | |n]; simpl.
  - exists true, []. reflexivity.
  - exists rooted, ns. reflexivity.
  - destruct ns as [|n ns] using rev_ind.
    + exists rooted, []. destruct rooted; reflexivity.
    + rewrite map_app, app_assoc. simpl. rewrite pop_app_normal.
      exists rooted, ns. reflexivity.
  - exists rooted, (ns ++ [n]). now rewrite map_app, app_assoc.
Qed.

Lemma normalize_fold_shape (p acc : path) :
  normal_shape acc -> normal_shape (fold_left normalize_step p acc).
Proof.
  revert acc; induction p as [|c p IH]; intros acc H; simpl; [exact H|].
  apply IH, normalize_step_shape, H.
Qed.

Lemma normalize_names (ns : list str) (acc : path) :
  fold_left normalize_step (map Normal ns) acc = acc ++ map Normal ns.
Proof.
  revert acc; induction ns as [|n ns IH]; intro acc; simpl; [now rewrite app_nil_r|].
  rewrite IH. now rewrite <- app_assoc.
Qed.

(** A normalised path is left unchanged by normalisation. *)
Lemma normalize_shape_fixed (q : path) :
  normal_shape q -> normalize_path_lexically q = q.
Proof.
  intros (rooted & ns & ->). unfold normalize_path_lexically.
  destruct rooted; simpl; now rewrite normalize_names.
Qed.

(** ** [parse_all_worktrees] and [find_worktree_by_branch] on snapshots *)

Lemma all_block (st : all_state) (b : block) (rest : list str) :
  fold_left all_parse_line (block_lines b ++ rest) st
  = fold_left all_parse_line rest (all_after_block st b).
Proof.
  destruct b as [p h br hf bl]. unfold block_lines, all_after_block.
  cbn [b_path b_head b_branch b_head_first b_blank].
  rewrite <- app_comm_cons. cbn [fold_left].
  change (all_parse_line st (worktree_line p))
    with (let '(m, ws) := all_save st in
          mk_astate m ws (S (as_index st)) (Some p) None).
  destruct (all_save st) as [m ws].
  rewrite <- !app_assoc, !fold_left_app.
  destruct hf, h as [x|], br as [y|], bl; reflexivity.
Qed.

Lemma all_save_after (st : all_state) (b : block) :
  all_save (all_after_block st b) = add_block (all_save st) (S (as_index st)) b
  /\ as_index (all_after_block st b) = S (as_index st).
Proof.
  unfold all_after_block, add_block. destruct (all_save st) as [m ws].
  destruct (b_blank b); cbn; destruct (as_index st =? 0); split; reflexivity.
Qed.

Lemma all_blocks (bs : list block) (st : all_state) :
  all_save (fold_left all_parse_line (porcelain_lines bs) st)
  = add_blocks (all_save st) (as_index st) bs.
Proof.
  revert st; induction bs as [|b bs IH]; intro st; [reflexivity|].
  unfold porcelain_lines. cbn [map List.concat]. rewrite all_block.
  fold (porcelain_lines bs). rewrite IH.
  destruct (all_save_after st b) as [E1 E2]. rewrite E1, E2. reflexivity.
Qed.

Lemma add_blocks_after_main (m : str) (ws : list (str * option str)) (k : nat) (bs : list block) :
  1 <= k -> add_blocks (m, ws) k bs = (m, ws ++ map (fun b => (b_path b, b_branch b)) bs).
Proof.
  revert ws k; induction bs as [|b bs IH]; intros ws k Hk; simpl; [now rewrite app_nil_r|].
  unfold add_block. destruct (S k =? 1) eqn:E; [apply Nat.eqb_eq in E; lia|]. simpl.
  rewrite IH by lia. now rewrite <- app_assoc.
Qed.

(** On a snapshot, the first block is the main worktree and the others
    are listed in order. *)
Lemma parse_all_render (b0 : block) (rest : list block) :
  forallb block_ok (b0 :: rest) = true ->
  parse_all_worktrees (render_porcelain (b0 :: rest))
  = (b_path b0, map (fun b => (b_path b, b_branch b)) rest).
Proof.
  intro H. unfold parse_all_worktrees. rewrite lines_render by exact H.
  rewrite all_blocks. simpl. unfold add_block. simpl.
  now apply add_blocks_after_main.
Qed.

Lemma find_worktree_line (name p : str) (rest : list str) (cp : option str) (k : nat) :
  find_branch_loop name (worktree_line p :: rest) cp k = find_branch_loop name rest (Some p) (S k).
Proof. reflexivity. Qed.

Lemma find_head_line (name h : str) (rest : list str) (cp : option str) (k : nat) :
  find_branch_loop name (head_line h :: rest) cp k = find_branch_loop name rest cp k.
Proof. reflexivity. Qed.

Lemma find_branch_line (name n : str) (rest : list str) (cp : option str) (k : nat) :
  find_branch_loop name (branch_line n :: rest) cp k
  = if (1 <? k) && str_eqb n name then cp else find_branch_loop name rest cp k.
Proof. reflexivity. Qed.

Lemma find_blank_line (name : str) (rest : list str) (cp : option str) (k : nat) :
  find_branch_loop name ([] :: rest) cp k = find_branch_loop name rest None k.
Proof. reflexivity. Qed.

Lemma find_branch_block (name : str) (b : block) (rest : list str) (cp : option str) (k : nat) :
  find_branch_loop name (block_lines b ++ rest) cp k
  = if (1 <? S k) && branch_is b name then Some (b_path b)
    else find_branch_loop name rest (if b_blank b then None else Some (b_path b)) (S k).
Proof.
  destruct b as [p h br hf bl]. unfold block_lines, branch_is.
  cbn [b_path b_head b_branch b_head_first b_blank].
  rewrite <- app_comm_cons, find_worktree_line.
  destruct hf, h as [x|], br as [y|], bl; cbn [opt_line app];
    rewrite ?find_head_line, ?find_branch_line, ?find_head_line, ?find_blank_line;
    try reflexivity;
    try (destruct ((1 <? S k) && str_eqb y name); rewrite ?find_head_line, ?find_blank_line; reflexivity);
    rewrite andb_false_r; reflexivity.
Qed.

Lemma find_branch_blocks_spec (name : str) (bs : list block) (cp : option str) (k : nat) :
  find_branch_loop name (porcelain_lines bs) cp k = find_branch_blocks name bs k.
Proof.
  revert cp k; induction bs as [|b bs IH]; intros cp k; [reflexivity|].
  unfold porcelain_lines. cbn [map List.concat]. rewrite find_branch_block.
  fold (porcelain_lines bs). simpl. now rewrite IH.
Qed.

(** On a snapshot, the branch lookup skips the first (main) block. *)
Lemma find_worktree_by_branch_render (b0 : block) (rest : list block) (name : str) :
  forallb block_ok (b0 :: rest) = true ->
  find_worktree_by_branch (render_porcelain (b0 :: rest)) name = find_branch_blocks name rest 1.
Proof.
  intro H. unfold find_worktree_by_branch. rewrite lines_render by exact H.
  rewrite find_branch_blocks_spec. reflexivity.
Qed.

(** ** Target resolution *)


Lemma str_eqb_neq (a b : str) : a <> b -> str_eqb a b = false.
Proof. intro H. destruct (str_eqb a b) eqn:E; [apply str_eqb_eq in E; contradiction|reflexivity]. Qed.



(** A token other than "." and "@": branch lookup first, then the path. *)
Lemma resolve_named_token (e : env) (name list_stdout : str) :
  name <> lit "." -> name <> lit "@" ->
  resolve_worktree_target e name list_stdout
  = let '(main_path, worktrees) := parse_all_worktrees list_stdout in
    let canon := canonicalize_allow_missing e in
    match find_worktree_by_branch list_stdout name with
    | Some p => Ok (canon (path_of_str p), path_of_str p, Some name, false)
    | None =>
        let canonical_input := canon (path_of_str name) in
        if path_eqb canonical_input (canon (path_of_str main_path)) then Err MainWorktreeTargeted
        else match find_first (fun pb => path_eqb canonical_input (canon (path_of_str (fst pb))))
                              worktrees with
             | Some (p, b) => Ok (canonical_input, path_of_str p, b, false)
             | None => Err (NotFound name)
             end
    end.
Proof.
  intros Hdot Hat. unfold resolve_worktree_target.
  rewrite (str_eqb_neq _ _ Hdot), (str_eqb_neq _ _ Hat).
  cbn -[parse_all_worktrees canonicalize_allow_missing find_worktree_by_branch path_of_str].
  destruct (parse_all_worktrees list_stdout). reflexivity.
Qed.

(** The returned flag is [name == "."]. *)
Lemma resolve_flag (e : env) (name list_stdout : str) (c w : path) (b : option str) (cur : bool) :
  resolve_worktree_target e name list_stdout = Ok (c, w, b, cur) -> cur = str_eqb name (lit ".").
Proof.
  unfold resolve_worktree_target.
  destruct (str_eqb name (lit ".")) eqn:Ed;
    [destruct (env_toplevel e); [|discriminate]|];
    cbn -[parse_all_worktrees canonicalize_allow_missing find_worktree_by_branch path_of_str];
    destruct (parse_all_worktrees list_stdout) as [m ws];
    destruct (str_eqb name (lit "@")); try discriminate;
    repeat match goal with
           | |- context [match ?x with _ => _ end] => destruct x
           | |- context [if ?x then _ else _] => destruct x
           end;
    intro H; try discriminate; injection H; intros; subst; reflexivity.
Qed.

(** ** The resolution loop of the batch removal *)

Lemma seen_contains_iff (seen : list path) (c : path) :
  seen_contains seen c = true <-> In c seen.
Proof.
  unfold seen_contains. rewrite existsb_exists. split.
  - intros (x & Hx & E). apply path_eqb_eq in E. now subst.
  - intro H. exists c. split; [exact H|]. now apply path_eqb_eq.
Qed.

Lemma map_filter_canonical (l : list removal) (c : path) :
  map removal_canonical (filter (fun r => negb (path_eqb (removal_canonical r) c)) l)
  = filter (fun x => negb (path_eqb x c)) (map removal_canonical l).
Proof.
  induction l as [|r l IH]; simpl; [reflexivity|].
  destruct (negb (path_eqb (removal_canonical r) c)); simpl; now rewrite IH.
Qed.

Lemma NoDup_snoc {A} (l : list A) (x : A) : NoDup l -> ~ In x l -> NoDup (l ++ [x]).
Proof.
  intros H Hx. rewrite <- (rev_involutive (l ++ [x])). apply NoDup_rev. rewrite rev_unit. constructor.
  - now rewrite <- in_rev.
  - now apply NoDup_rev.
Qed.

Section Queue.

Variable e : env.
Variable list_stdout : str.

(** Every seen path is queued exactly once, and the current-worktree
    entry is what "." resolves to. *)
Definition queue_inv (q : rm_queue) : Prop :=
  NoDup (queue_paths q) /\
  (forall c, In c (q_seen q) <-> In c (queue_paths q)) /\
  (forall c w b, q_current q = Some (c, w, b) ->
     resolve_worktree_target e (lit ".") list_stdout = Ok (c, w, b, true)).

Lemma queue_inv_init : queue_inv rm_queue_init.
Proof. split; [constructor|split; [reflexivity|discriminate]]. Qed.

Lemma queue_inv_step (q q' : rm_queue) (t : str) :
  queue_inv q -> rm_resolve_step e list_stdout q t = Ok q' -> queue_inv q'.
Proof.
  intros (Hnd & Hseen & Hcur). unfold queue_inv, rm_resolve_step.
  destruct (resolve_worktree_target e t list_stdout) as [[[[c w] b] cur]|err] eqn:R;
    [|discriminate].
  pose proof (resolve_flag _ _ _ _ _ _ _ R) as Hflag.
  destruct cur.
  - symmetry in Hflag. apply str_eqb_eq in Hflag. subst t.
    (* an earlier current entry is the same resolution of "." *)
    assert (Hold : forall r, q_current q = Some r -> r = (c, w, b)).
    { intros [[c' w'] b'] E. specialize (Hcur _ _ _ E). rewrite R in Hcur.
      congruence. }
    destruct (seen_contains (q_seen q) c) eqn:S; intro E; injection E as <-.
    + apply seen_contains_iff in S.
      unfold queue_paths in *. cbn [q_current q_non_current q_seen].
      rewrite map_filter_canonical. split; [|split].
      * constructor.
        -- rewrite filter_In. intros [_ F]. cbn [removal_canonical] in F.
           rewrite (proj2 (path_eqb_eq c c) eq_refl) in F. discriminate.
        -- apply NoDup_filter. destruct (q_current q); [|exact Hnd].
           simpl in Hnd. now inversion Hnd.
      * intro x. rewrite Hseen. simpl. rewrite filter_In, in_app_iff, Bool.negb_true_iff.
        split.
        -- intros [Hx|Hx].
           ++ destruct (q_current q) as [r|] eqn:Ec; simpl in Hx; [|contradiction].
              destruct Hx as [<-|[]]. left. rewrite (Hold r eq_refl). reflexivity.
           ++ destruct (path_eqb x c) eqn:Exc.
              ** left. apply path_eqb_eq in Exc. now subst.
              ** right. now split.
        -- intros [<-|[Hx _]].
           ++ apply Hseen in S. now apply in_app_iff.
           ++ now right.
      * intros c0 w0 b0 Ec. injection Ec as <- <- <-. exact R.
    + assert (Hnc : ~ In c (queue_paths q)).
      { intro Hin. apply Hseen in Hin. apply seen_contains_iff in Hin. congruence. }
      assert (Hnone : q_current q = None).
      { destruct (q_current q) as [r|] eqn:Ec; [|reflexivity].
        exfalso. apply Hnc. unfold queue_paths. rewrite Ec, (Hold r eq_refl). now left. }
      unfold queue_paths in *. rewrite Hnone in *. cbn [q_current q_non_current q_seen app] in *.
      split; [|split].
      * constructor; assumption.
      * intro x. rewrite in_app_iff, Hseen. simpl. tauto.
      * intros c0 w0 b0 Ec. injection Ec as <- <- <-. exact R.
  - destruct (seen_contains (q_seen q) c) eqn:S; intro E; injection E as <-.
    + split; [exact Hnd|split; [exact Hseen|exact Hcur]].
    + assert (Hnc : ~ In c (queue_paths q)).
      { intro Hin. apply Hseen in Hin. apply seen_contains_iff in Hin. congruence. }
      unfold queue_paths in *. cbn [q_current q_non_current q_seen].
      split; [|split].
      * rewrite map_app, app_assoc. apply NoDup_snoc; assumption.
      * intro x. rewrite map_app, app_assoc, in_app_iff, Hseen, !in_app_iff. tauto.
      * exact Hcur.
Qed.

Lemma queue_inv_all (targets : list str) (q q' : rm_queue) :
  queue_inv q -> rm_resolve_all e list_stdout q targets = Ok q' -> queue_inv q'.
Proof.
  revert q; induction targets as [|t ts IH]; intros q Hq H; simpl in H.
  - congruence.
  - destruct (rm_resolve_step e list_stdout q t) as [q1|err] eqn:E; [|discriminate].
    apply (IH q1); [|exact H]. exact (queue_inv_step q q1 t Hq E).
Qed.

Lemma rm_resolve_all_app (targets : list str) (t : str) (q q' : rm_queue) :
  rm_resolve_all e list_stdout q targets = Ok q' ->
  rm_resolve_all e list_stdout q (targets ++ [t]) = rm_resolve_step e list_stdout q' t.
Proof.
  revert q; induction targets as [|t0 ts IH]; intros q H; simpl in *.
  - injection H as ->. destruct (rm_resolve_step e list_stdout q' t); reflexivity.
  - destruct (rm_resolve_step e list_stdout q t0); [now apply IH|discriminate].
Qed.

Lemma rm_resolve_all_fails (targets : list str) (q : rm_queue) (t : str) (err : resolve_error) :
  In t targets -> resolve_worktree_target e t list_stdout = Err err ->
  exists err', rm_resolve_all e list_stdout q targets = Err err'.
Proof.
  revert q; induction targets as [|t0 ts IH]; intros q Hin R; [destruct Hin|]. simpl.
  destruct Hin as [<-|Hin].
  - unfold rm_resolve_step at 1. rewrite R. now exists err.
  - destruct (rm_resolve_step e list_stdout q t0) as [q1|err1].
    + now apply IH.
    + now exists err1.
Qed.

End Queue.

(** ** Snapshot-level resolution facts *)

Lemma branch_is_false (b : block) (name : str) :
  b_branch b <> Some name -> branch_is b name = false.
Proof.
  unfold branch_is. destruct (b_branch b) as [n|]; [|reflexivity].
  intro H. apply str_eqb_neq. congruence.
Qed.

Lemma branch_is_true (b : block) (name : str) :
  b_branch b = Some name -> branch_is b name = true.
Proof. unfold branch_is. intros ->. apply str_eqb_refl. Qed.

Lemma find_branch_blocks_skip (name : str) (pre rest : list block) (k : nat) :
  (forall b, In b pre -> b_branch b <> Some name) ->
  find_branch_blocks name (pre ++ rest) k = find_branch_blocks name rest (k + List.length pre).
Proof.
  revert k; induction pre as [|b pre IH]; intros k H; simpl.
  - now rewrite Nat.add_0_r.
  - rewrite (branch_is_false b name) by (apply H; now left). rewrite andb_false_r.
    rewrite IH by (intros b' Hb'; apply H; now right). f_equal. lia.
Qed.

Lemma resolve_branch_match (e : env) (b0 : block) (rest : list block) (name p : str) :
  forallb block_ok (b0 :: rest) = true -> name <> lit "." -> name <> lit "@" ->
  find_branch_blocks name rest 1 = Some p ->
  resolve_worktree_target e name (render_porcelain (b0 :: rest))
  = Ok (canonicalize_allow_missing e (path_of_str p), path_of_str p, Some name, false).
Proof.
  intros Hok Hdot Hat Hf. rewrite resolve_named_token by assumption.
  rewrite parse_all_render, find_worktree_by_branch_render, Hf by exact Hok. reflexivity.
Qed.

Lemma resolve_no_branch_match (e : env) (b0 : block) (rest : list block) (name : str) :
  forallb block_ok (b0 :: rest) = true -> name <> lit "." -> name <> lit "@" ->
  (forall b, In b rest -> b_branch b <> Some name) ->
  resolve_worktree_target e name (render_porcelain (b0 :: rest))
  = let canon := canonicalize_allow_missing e in
    let canonical_input := canon (path_of_str name) in
    if path_eqb canonical_input (canon (path_of_str (b_path b0))) then Err MainWorktreeTargeted
    else match find_first (fun pb => path_eqb canonical_input (canon (path_of_str (fst pb))))
                          (map (fun b => (b_path b, b_branch b)) rest) with
         | Some (p, br) => Ok (canonical_input, path_of_str p, br, false)
         | None => Err (NotFound name)
         end.
Proof.
  intros Hok Hdot Hat Hno. rewrite resolve_named_token by assumption.
  rewrite parse_all_render, find_worktree_by_branch_render by exact Hok.
  assert (Hf : find_branch_blocks name rest 1 = None).
  { pose proof (find_branch_blocks_skip name rest [] 1 Hno) as H.
    rewrite app_nil_r in H. exact H. }
  rewrite Hf. reflexivity.
Qed.

Lemma find_first_some {A} (f : A -> bool) (l : list A) (x : A) :
  find_first f l = Some x -> In x l /\ f x = true.
Proof.
  induction l as [|y l IH]; simpl; [discriminate|].
  destruct (f y) eqn:Ey.
  - intros [= <-]. auto.
  - intros H. destruct (IH H). auto.
Qed.

Lemma find_first_none {A} (f : A -> bool) (l : list A) :
  find_first f l = None -> forall x, In x l -> f x = false.
Proof.
  induction l as [|y l IH]; simpl; [contradiction|].
  destruct (f y) eqn:Ey; [discriminate|].
  intros H x [<-|Hx]; auto.
Qed.

Lemma fold_min_repeat (p : path) (m : nat) :
  fold_left (fun d q => Nat.min d (common_prefix_len p q)) (repeat p m) (List.length p)
  = List.length p.
Proof.
  apply Nat.le_antisymm; [apply fold_min_le_init|].
  apply fold_min_ge; [lia|]. intros q Hq. apply repeat_spec in Hq. subst q.
  rewrite common_prefix_len_refl. lia.
Qed.

Lemma parent_of_wf (p : path) :
  wf_path p = true -> p <> [] -> p <> [RootDir] ->
  exists q c, parent p = Some q /\ p = q ++ [c].
Proof.
  intros Hwf Hne Hroot. unfold parent.
  destruct (rev p) as [|x r] eqn:E.
  - apply (f_equal (@rev component)) in E. rewrite rev_involutive in E. contradiction.
  - apply (f_equal (@rev component)) in E. rewrite rev_involutive in E. simpl in E.
    destruct x as [| | |n]; try (exists (rev r); eexists; split; [reflexivity|exact E]).
    exfalso. destruct (rev r) as [|y z] eqn:Er; simpl in E; [contradiction|].
    subst p. assert (Hin : forallb inner_component (z ++ [RootDir]) = true)
      by (destruct y; simpl in Hwf; try exact Hwf; apply andb_prop in Hwf; apply Hwf).
    rewrite forallb_app in Hin. simpl in Hin. now rewrite andb_false_r in Hin.
Qed.

Lemma resolve_canonical (e : env) (name list_stdout : str) (c w : path) (b : option str) (cur : bool) :
  resolve_worktree_target e name list_stdout = Ok (c, w, b, cur) ->
  c = canonicalize_allow_missing e w.
Proof.
  unfold resolve_worktree_target.
  destruct (str_eqb name (lit ".")) eqn:Ed;
    [destruct (env_toplevel e); [|discriminate]|];
    cbn -[parse_all_worktrees canonicalize_allow_missing find_worktree_by_branch path_of_str];
    destruct (parse_all_worktrees list_stdout) as [m ws];
    destruct (str_eqb name (lit "@")); try discriminate;
    repeat match goal with
           | |- context [match ?x with _ => _ end] => destruct x eqn:?
           | |- context [if ?x then _ else _] => destruct x eqn:?
           end;
    intro H; try discriminate; injection H; intros; subst; try reflexivity.
  all: match goal with
       | Hf : find_first _ _ = Some _ |- _ =>
           apply find_first_some in Hf as [_ Hf]; apply path_eqb_eq in Hf; exact Hf
       end.
Qed.


(* ================================================================== *)
(** * Properties of the specification *)



(** C2 (counterexample): the main worktree's own branch name is not
    matched as a branch.  With the working directory /home/u, "main" is
    then read as the path /home/u/main, which is no worktree. *)
Lemma resolve_main_branch_counterexample :
  resolve_worktree_target (empty_env (lit "/home/u") None) (lit "main") (render_porcelain feat_snapshot)
  = Err (NotFound (lit "main")).
Proof. vm_compute. reflexivity. Qed.

(** C2 (amended): on a snapshot whose main worktree has branch B, where B
    is neither "." nor "@" nor the branch of a non-main worktree, B is
    resolved as a path: it fails with [MainWorktreeTargeted] exactly when
    its canonical path is the canonical main path; a success returns the
    canonical path of B and a non-main worktree with that canonical path;
    and it fails with [NotFound] exactly when no worktree, main or not,
    has the canonical path of B. *)
Theorem resolve_main_branch (e : env) (b0 : block) (rest : list block) (B : str) :
  forallb block_ok (b0 :: rest) = true -> b_branch b0 = Some B ->
  B <> lit "." -> B <> lit "@" ->
  (forall b, In b rest -> b_branch b <> Some B) ->
  let canon := canonicalize_allow_missing e in
  (resolve_worktree_target e B (render_porcelain (b0 :: rest)) = Err MainWorktreeTargeted
   <-> canon (path_of_str B) = canon (path_of_str (b_path b0))) /\
  (forall c w br cur,
     resolve_worktree_target e B (render_porcelain (b0 :: rest)) = Ok (c, w, br, cur) ->
     c = canon (path_of_str B) /\ cur = false /\
     exists b, In b rest /\ canon (path_of_str (b_path b)) = canon (path_of_str B) /\
               w = path_of_str (b_path b) /\ br = b_branch b) /\
  (resolve_worktree_target e B (render_porcelain (b0 :: rest)) = Err (NotFound B)
   <-> canon (path_of_str B) <> canon (path_of_str (b_path b0)) /\
       forall b, In b rest -> canon (path_of_str (b_path b)) <> canon (path_of_str B)).
Proof.
  intros Hok _ Hdot Hat Hno canon.
  rewrite (resolve_no_branch_match e b0 rest B Hok Hdot Hat Hno). cbv zeta. fold canon.
  destruct (path_eqb (canon (path_of_str B)) (canon (path_of_str (b_path b0)))) eqn:Em.
  - apply path_eqb_eq in Em. split; [|split].
    + tauto.
    + intros c w br cur H. discriminate H.
    + split; [discriminate|]. intros [Hne _]. contradiction.
  - assert (Hne : canon (path_of_str B) <> canon (path_of_str (b_path b0))).
    { intro E. rewrite E, (proj2 (path_eqb_eq _ _) eq_refl) in Em. discriminate. }
    destruct (find_first _ _) as [[p br0]|] eqn:Ef.
    + apply find_first_some in Ef as [Hin Hf]. simpl in Hf. apply path_eqb_eq in Hf.
      apply in_map_iff in Hin as [b [Eb Hb]]. injection Eb as Ep Ebr.
      split; [|split].
      * split; [discriminate|]. intro E. contradiction.
      * intros c w br cur [= <- <- <- <-]. repeat split.
        exists b. subst p br0. auto.
      * split; [discriminate|]. intros [_ Hall]. exfalso. apply (Hall b Hb).
        subst p. symmetry. exact Hf.
    + pose proof (find_first_none _ _ Ef) as Hnone. split; [|split].
      * split; [discriminate|]. intro E. contradiction.
      * intros c w br cur H. discriminate H.
      * split; [intros _|reflexivity]. split; [exact Hne|].
        intros b Hb E. specialize (Hnone (b_path b, b_branch b)).
        cbv beta in Hnone. cbn [fst] in Hnone.
        rewrite (proj2 (path_eqb_eq _ _) (eq_sym E)) in Hnone.
        discriminate (Hnone (in_map _ _ _ Hb)).
Qed.

(** C2 (witness): "main" on [feat_snapshot] with working directory
    /home/u is no worktree's canonical path. *)
Lemma resolve_main_branch_witness :
  resolve_worktree_target (empty_env (lit "/home/u") None) (lit "main") (render_porcelain feat_snapshot)
  = Err (NotFound (lit "main")).
Proof.
  unfold feat_snapshot.
  apply (resolve_main_branch (empty_env (lit "/home/u") None)).
  - vm_compute. reflexivity.
  - reflexivity.
  - intro H. vm_compute in H. discriminate H.
  - intro H. vm_compute in H. discriminate H.
  - intros b [<-|[]]. intro H. vm_compute in H. discriminate H.
  - split.
    + intro H. vm_compute in H. discriminate H.
    + intros b [<-|[]]. intro H. vm_compute in H. discriminate H.
Defined.

(** C3: on the rendering of N well-formed blocks (a [worktree] line, then
    optional [HEAD] and [branch refs/heads/] lines in either order, then a
    blank line or the end of input), [parse_worktree_entries] returns N
    entries in block order; the i-th entry has the i-th block's path, its
    branch name (None without a branch line) and the first 8 characters of
    its HEAD hex, or "(unknown)" without a HEAD line ([block_fields]).
    Empty input gives the empty list. *)
Theorem parse_worktree_entries_blocks (fs : path -> option path) (bs : list block)
    (active_path : option path) :
  forallb block_ok bs = true ->
  List.length (parse_worktree_entries fs (render_porcelain bs) active_path) = List.length bs /\
  map entry_fields (parse_worktree_entries fs (render_porcelain bs) active_path)
  = map block_fields bs /\
  parse_worktree_entries fs [] active_path = [].
Proof.
  intros Hok. rewrite (parse_worktree_entries_render fs bs active_path Hok).
  split; [|split].
  - apply length_map.
  - rewrite map_map. apply map_ext. intros b. reflexivity.
  - reflexivity.
Qed.

(** C3 (witness): the two-block snapshot of the spec's scenario. *)
Lemma parse_worktree_entries_blocks_witness :
  map entry_fields (parse_worktree_entries (fun _ => None) (render_porcelain spec_snapshot) None)
  = map block_fields spec_snapshot.
Proof.
  apply (parse_worktree_entries_blocks (fun _ => None) spec_snapshot None).
  vm_compute. reflexivity.
Defined.

(** C8: on every input, the simple parser returns the (path, branch)
    projections of the full parser's entries, in the same order. *)
Theorem parse_simple_is_projection (fs : path -> option path) (output : str)
    (active_path : option path) :
  map simple_of_entry (parse_worktree_entries fs output active_path)
  = parse_simple_worktree_entries output.
Proof.
  unfold parse_worktree_entries, parse_simple_worktree_entries.
  rewrite <- simple_save_sim.
  rewrite <- simple_fold_sim. reflexivity.
Qed.

(** C9: lexical normalisation is idempotent, and a leading ".." (popped
    from the empty accumulator) is dropped. *)
Theorem normalize_path_lexically_idempotent (p : path) :
  normalize_path_lexically (normalize_path_lexically p) = normalize_path_lexically p /\
  normalize_path_lexically (ParentDir :: p) = normalize_path_lexically p.
Proof.
  split; [|reflexivity].
  apply normalize_shape_fixed. unfold normalize_path_lexically.
  apply normalize_fold_shape. exists false, []. reflexivity.
Qed.

(** C6: [calculate_worktree_root_from_paths] gives None on no path, the
    parent on one path, and on two or more parsed paths the longest
    component prefix they all share, or None when they share none; on
    "/a/b/x" and "/a/b/y/z" it gives "/a/b". *)
Theorem calculate_worktree_root_spec :
  calculate_worktree_root_from_paths [] = None /\
  (forall p, calculate_worktree_root_from_paths [p] = parent p) /\
  (forall s0 s1 rest,
     match calculate_worktree_root_from_paths (map path_of_str (s0 :: s1 :: rest)) with
     | Some r =>
         r <> [] /\ common_prefix r (map path_of_str (s0 :: s1 :: rest)) /\
         forall q, common_prefix q (map path_of_str (s0 :: s1 :: rest)) ->
                   List.length q <= List.length r
     | None => forall q, common_prefix q (map path_of_str (s0 :: s1 :: rest)) -> q = []
     end) /\
  calculate_worktree_root_from_paths [path_of_str (lit "/a/b/x"); path_of_str (lit "/a/b/y/z")]
  = Some (path_of_str (lit "/a/b")).
Proof.
  split; [reflexivity|]. split; [reflexivity|]. split.
  - intros s0 s1 rest. cbn [map]. apply root_of_many, wf_path_of_str.
  - vm_compute. reflexivity.
Qed.

(** C6 (witness): "/a/b" is a common prefix of "/a/b/x" and "/a/b/y/z",
    read off the general case. *)
Lemma calculate_worktree_root_spec_witness :
  common_prefix (path_of_str (lit "/a/b")) (map path_of_str [lit "/a/b/x"; lit "/a/b/y/z"]).
Proof.
  destruct calculate_worktree_root_spec as [_ [_ [H3 H4]]].
  pose proof (H3 (lit "/a/b/x") (lit "/a/b/y/z") []) as H.
  cbn [map] in H |- *. rewrite H4 in H. exact (proj1 (proj2 H)).
Defined.

(** C10: for a path with at least one component below the root, two or
    more copies of it give the path itself as root, while the path alone
    gives its parent, one component shorter. *)
Theorem calculate_worktree_root_copies (s : str) (n : nat) :
  path_of_str s <> [] -> path_of_str s <> [RootDir] -> 2 <= n ->
  calculate_worktree_root_from_paths (repeat (path_of_str s) n) = Some (path_of_str s) /\
  exists q c, calculate_worktree_root_from_paths [path_of_str s] = Some q /\
              path_of_str s = q ++ [c].
Proof.
  intros Hne Hroot Hn. pose proof (wf_path_of_str s) as Hwf.
  set (p := path_of_str s) in *. split.
  - destruct n as [|[|m]]; [lia|lia|].
    change (repeat p (S (S m))) with (p :: p :: repeat p m).
    unfold calculate_worktree_root_from_paths.
    change (p :: repeat p m) with (repeat p (S m)).
    rewrite fold_min_repeat.
    destruct (List.length p =? 0) eqn:E.
    + apply Nat.eqb_eq, length_zero_iff_nil in E. contradiction.
    + rewrite firstn_all, push_all_wf by exact Hwf. reflexivity.
  - exact (parent_of_wf p Hwf Hne Hroot).
Qed.

(** C10 (witness): three copies of "/r/wt/feature". *)
Lemma calculate_worktree_root_copies_witness :
  calculate_worktree_root_from_paths (repeat (path_of_str (lit "/r/wt/feature")) 3)
  = Some (path_of_str (lit "/r/wt/feature")).
Proof.
  apply (calculate_worktree_root_copies (lit "/r/wt/feature") 3).
  - vm_compute. discriminate.
  - vm_compute. discriminate.
  - lia.
Defined.

(** C5: if any target of a batch fails to resolve, [cmd_rm_many] fails
    with a resolution error before removing anything: its event log is
    empty, whatever [remove_worktree_internal] would do. *)
Theorem cmd_rm_many_all_or_nothing (rm : path -> option str -> bool) (e : env)
    (list_stdout : str) (targets : list str) (t : str) (err : resolve_error) :
  In t targets -> resolve_worktree_target e t list_stdout = Err err ->
  exists err', cmd_rm_many rm e list_stdout targets = (RmResolveFailed err', []).
Proof.
  intros Hin R. unfold cmd_rm_many.
  destruct (rm_resolve_all_fails e list_stdout targets rm_queue_init t err Hin R) as [err' E].
  rewrite E. now exists err'.
Qed.

(** C5 (witness): "feat" resolves but "nope" does not, so nothing is
    removed. *)
Lemma cmd_rm_many_all_or_nothing_witness :
  exists err', cmd_rm_many (fun _ _ => true) (empty_env (lit "/home/u") None)
                 (render_porcelain feat_snapshot) [lit "feat"; lit "nope"]
               = (RmResolveFailed err', []).
Proof.
  apply (cmd_rm_many_all_or_nothing (fun _ _ => true) (empty_env (lit "/home/u") None)
           (render_porcelain feat_snapshot) [lit "feat"; lit "nope"] (lit "nope")
           (NotFound (lit "nope"))).
  - right. left. reflexivity.
  - vm_compute. reflexivity.
Defined.

(** C4: a token that is the branch of a non-main worktree [w] resolves to
    [w], with branch [Some T], even when it also canonicalises to the
    path of another non-main worktree [w2]: the branch match wins. *)
Theorem resolve_branch_priority (e : env) (b0 : block) (pre : list block) (w : block)
    (post : list block) (w2 : block) (T : str) :
  forallb block_ok (b0 :: pre ++ w :: post) = true ->
  T <> lit "." -> T <> lit "@" ->
  b_branch w = Some T ->
  (forall b, In b pre -> b_branch b <> Some T) ->
  In w2 (pre ++ post) -> b_path w2 <> b_path w ->
  canonicalize_allow_missing e (path_of_str T)
  = canonicalize_allow_missing e (path_of_str (b_path w2)) ->
  resolve_worktree_target e T (render_porcelain (b0 :: pre ++ w :: post))
  = Ok (canonicalize_allow_missing e (path_of_str (b_path w)), path_of_str (b_path w),
        Some T, false).
Proof.
  intros Hok Hdot Hat Hw Hpre _ _ _.
  apply resolve_branch_match; try assumption.
  rewrite find_branch_blocks_skip by exact Hpre.
  cbn [find_branch_blocks]. rewrite branch_is_true by exact Hw.
  replace (1 <? S (1 + List.length pre)) with true by (symmetry; apply Nat.ltb_lt; lia).
  reflexivity.
Qed.

(** C4 (witness): in [collide_snapshot], "y" is the branch of /r/wt/x and,
    from /r, the path of the worktree /r/y; it resolves to /r/wt/x. *)
Lemma resolve_branch_priority_witness :
  resolve_worktree_target (empty_env (lit "/r") None) (lit "y") (render_porcelain collide_snapshot)
  = Ok (path_of_str (lit "/r/wt/x"), path_of_str (lit "/r/wt/x"), Some (lit "y"), false).
Proof.
  pose proof (resolve_branch_priority (empty_env (lit "/r") None)
    (mk_block (lit "/r/main") (Some (lit "1111111122222222")) (Some (lit "main")) true true) []
    (mk_block (lit "/r/wt/x") (Some (lit "3333333344444444")) (Some (lit "y")) true true)
    [mk_block (lit "/r/y") None (Some (lit "z")) false false]
    (mk_block (lit "/r/y") None (Some (lit "z")) false false)
    (lit "y")) as H.
  unfold collide_snapshot. refine (eq_trans (H _ _ _ _ _ _ _ _) _).
  all: first [ vm_compute; reflexivity
             | intro E; vm_compute in E; discriminate E
             | intros b []
             | left; reflexivity ].
Defined.

(** C7: a later non-current target whose canonical path has already been
    seen is dropped with a [DuplicateSkipped] warning, the queue staying
    as it was, and that path is queued exactly once; resolving
    ["feat"; "feat"] gives one non-current removal of /r/wt/feat and one
    warning. *)
Theorem rm_duplicate_skipped :
  (forall e list_stdout targets t q c w b,
     rm_resolve_all e list_stdout rm_queue_init targets = Ok q ->
     resolve_worktree_target e t list_stdout = Ok (c, w, b, false) ->
     In c (q_seen q) ->
     rm_resolve_all e list_stdout rm_queue_init (targets ++ [t])
     = Ok (mk_queue (q_non_current q) (q_current q) (q_seen q)
                    (q_warnings q ++ [DuplicateSkipped c])) /\
     count_occ path_eq_dec (queue_paths q) c = 1) /\
  (forall e,
     let c := canonicalize_allow_missing e (path_of_str (lit "/r/wt/feat")) in
     rm_resolve_all e (render_porcelain feat_snapshot) rm_queue_init [lit "feat"; lit "feat"]
     = Ok (mk_queue [(c, path_of_str (lit "/r/wt/feat"), Some (lit "feat"))] None [c]
                    [DuplicateSkipped c])).
Proof.
  split.
  - intros e list_stdout targets t q c w b Hq R Hin.
    split.
    + rewrite (rm_resolve_all_app e list_stdout targets t rm_queue_init q Hq).
      unfold rm_resolve_step. rewrite R.
      rewrite (proj2 (seen_contains_iff (q_seen q) c) Hin). reflexivity.
    + destruct (queue_inv_all e list_stdout targets rm_queue_init q
                  (queue_inv_init e list_stdout) Hq) as (Hnd & Hseen & _).
      apply (NoDup_count_occ' path_eq_dec); [exact Hnd|]. apply Hseen, Hin.
  - intros e c.
    assert (R : resolve_worktree_target e (lit "feat") (render_porcelain feat_snapshot)
                = Ok (c, path_of_str (lit "/r/wt/feat"), Some (lit "feat"), false)).
    { unfold feat_snapshot. apply resolve_branch_match.
      - vm_compute. reflexivity.
      - intro E. vm_compute in E. discriminate E.
      - intro E. vm_compute in E. discriminate E.
      - reflexivity. }
    cbn [rm_resolve_all]. unfold rm_resolve_step. rewrite R.
    cbn [q_seen q_non_current q_current q_warnings rm_queue_init seen_contains existsb app].
    rewrite (proj2 (path_eqb_eq c c) eq_refl). reflexivity.
Qed.

(** C7 (witness): with the working directory /home/u, "feat" once more
    after "feat". *)
Lemma rm_duplicate_skipped_witness :
  rm_resolve_all (empty_env (lit "/home/u") None) (render_porcelain feat_snapshot) rm_queue_init
    [lit "feat"; lit "feat"]
  = Ok (mk_queue [(path_of_str (lit "/r/wt/feat"), path_of_str (lit "/r/wt/feat"), Some (lit "feat"))]
                 None [path_of_str (lit "/r/wt/feat")]
                 [DuplicateSkipped (path_of_str (lit "/r/wt/feat"))]) /\
  count_occ path_eq_dec [path_of_str (lit "/r/wt/feat")] (path_of_str (lit "/r/wt/feat")) = 1.
Proof.
  destruct rm_duplicate_skipped as [H _].
  apply (H (empty_env (lit "/home/u") None) (render_porcelain feat_snapshot) [lit "feat"]
           (lit "feat")
           (mk_queue [(path_of_str (lit "/r/wt/feat"), path_of_str (lit "/r/wt/feat"), Some (lit "feat"))]
                     None [path_of_str (lit "/r/wt/feat")] [])
           (path_of_str (lit "/r/wt/feat")) (path_of_str (lit "/r/wt/feat")) (Some (lit "feat"))).
  - vm_compute. reflexivity.
  - vm_compute. reflexivity.
  - left. reflexivity.
Defined.

(* ================================================================== *)
(** * Further properties of the code *)

(** ** [find_worktree_by_path] on snapshots *)

Section FindPath.

Variable e : env.
Variable target : path.

Let same_path (b : block) : bool :=
  path_eqb (canonicalize_allow_missing e target)
           (canonicalize_allow_missing e (path_of_str (b_path b))).

Lemma find_path_worktree_line (p : str) (rest : list str) (k : nat) :
  find_path_loop e target (worktree_line p :: rest) k
  = if 1 <? S k then
      if path_eqb (canonicalize_allow_missing e target) (canonicalize_allow_missing e (path_of_str p))
      then Some p else find_path_loop e target rest (S k)
    else find_path_loop e target rest (S k).
Proof. reflexivity. Qed.

Lemma find_path_head_line (h : str) (rest : list str) (k : nat) :
  find_path_loop e target (head_line h :: rest) k = find_path_loop e target rest k.
Proof. reflexivity. Qed.

Lemma find_path_branch_line (n : str) (rest : list str) (k : nat) :
  find_path_loop e target (branch_line n :: rest) k = find_path_loop e target rest k.
Proof. reflexivity. Qed.

Lemma find_path_blank_line (rest : list str) (k : nat) :
  find_path_loop e target ([] :: rest) k = find_path_loop e target rest k.
Proof. reflexivity. Qed.

Lemma find_path_block (b : block) (rest : list str) (k : nat) :
  find_path_loop e target (block_lines b ++ rest) k
  = if (1 <? S k) && same_path b then Some (b_path b) else find_path_loop e target rest (S k).
Proof.
  destruct b as [p h br hf bl]. unfold block_lines, same_path.
  cbn [b_path b_head b_branch b_head_first b_blank].
  rewrite <- app_comm_cons, find_path_worktree_line.
  assert (Hrest : find_path_loop e target
            (((if hf then opt_line head_line h ++ opt_line branch_line br
              else opt_line branch_line br ++ opt_line head_line h)
             ++ (if bl then [[]] else [])) ++ rest) (S k)
          = find_path_loop e target rest (S k)).
  { destruct hf, h as [x|], br as [y|], bl; cbn [opt_line app];
      rewrite ?find_path_head_line, ?find_path_branch_line, ?find_path_head_line,
        ?find_path_blank_line; reflexivity. }
  rewrite Hrest.
  destruct (1 <? S k); cbn [andb]; [|reflexivity].
  destruct (path_eqb _ _); reflexivity.
Qed.

Lemma find_path_blocks (bs : list block) (k : nat) :
  1 <= k ->
  find_path_loop e target (porcelain_lines bs) k = option_map b_path (find_first same_path bs).
Proof.
  revert k; induction bs as [|b bs IH]; intros k Hk; [reflexivity|].
  unfold porcelain_lines. cbn [map List.concat]. rewrite find_path_block.
  fold (porcelain_lines bs).
  replace (1 <? S k) with true by (symmetry; apply Nat.ltb_lt; lia).
  cbn [andb find_first]. destruct (same_path b); [reflexivity|]. apply IH. lia.
Qed.

End FindPath.

(** ** [find_worktree_by_branch] on snapshots *)

Lemma find_branch_blocks_first (name : str) (bs : list block) (k : nat) :
  1 <= k ->
  find_branch_blocks name bs k = option_map b_path (find_first (fun b => branch_is b name) bs).
Proof.
  revert k; induction bs as [|b bs IH]; intros k Hk; [reflexivity|]. simpl.
  replace (1 <? S k) with true by (symmetry; apply Nat.ltb_lt; lia). cbn [andb].
  destruct (branch_is b name); [reflexivity|]. apply IH. lia.
Qed.

(** ** [is_main_worktree] on snapshots *)

Lemma is_main_block0 (b : block) (ls : list str) :
  is_main_loop (block_lines b ++ ls) None None 0 = is_main_loop ls (Some (b_path b)) (b_branch b) 1.
Proof.
  destruct b as [p h br hf bl]. unfold block_lines.
  cbn [b_path b_head b_branch b_head_first b_blank].
  destruct hf, h as [x|], br as [y|], bl; reflexivity.
Qed.

Lemma is_main_rest (bs : list block) (mp : str) (mb : option str) :
  is_main_loop (porcelain_lines bs) (Some mp) mb 1 = (Some mp, mb).
Proof.
  destruct bs as [|b bs]; [reflexivity|].
  unfold porcelain_lines. cbn [map List.concat]. unfold block_lines at 1.
  reflexivity.
Qed.

(** ** [parse_worktree_list] on snapshots *)

Lemma worktree_list_worktree_line (p : str) (brs : list str) (k : nat) (cur : option str) :
  worktree_list_step (brs, k, cur) (worktree_line p)
  = (match cur with Some b => if 0 <? k then brs ++ [b] else brs | None => brs end, S k, None).
Proof. reflexivity. Qed.

Lemma worktree_list_head_line (h : str) (brs : list str) (k : nat) (cur : option str) :
  worktree_list_step (brs, k, cur) (head_line h) = (brs, k, cur).
Proof. reflexivity. Qed.

Lemma worktree_list_branch_line (n : str) (brs : list str) (k : nat) (cur : option str) :
  worktree_list_step (brs, k, cur) (branch_line n) = (brs, k, Some n).
Proof. reflexivity. Qed.

Lemma worktree_list_blank_line (brs : list str) (k : nat) (cur : option str) :
  worktree_list_step (brs, k, cur) []
  = (match cur with Some b => if 1 <? k then brs ++ [b] else brs | None => brs end, k, None).
Proof. reflexivity. Qed.

Lemma worktree_list_block (b : block) (brs : list str) (k : nat) (cur : option str) :
  1 <= k ->
  fold_left worktree_list_step (block_lines b) (brs, k, cur)
  = (brs ++ branch_list cur ++ (if b_blank b then branch_list (b_branch b) else []),
     S k, if b_blank b then None else b_branch b).
Proof.
  intro Hk. destruct k as [|k]; [lia|].
  destruct b as [p h br hf bl]. unfold block_lines.
  cbn [b_path b_head b_branch b_head_first b_blank].
  destruct cur as [c|], hf, h as [x|], br as [y|], bl; cbn [fold_left app opt_line];
    rewrite worktree_list_worktree_line;
    rewrite ?worktree_list_head_line, ?worktree_list_branch_line, ?worktree_list_head_line,
      ?worktree_list_blank_line;
    cbn [Nat.ltb Nat.leb branch_list]; rewrite ?app_nil_r, <- ?app_assoc; reflexivity.
Qed.

Lemma worktree_list_block0 (b : block) :
  fold_left worktree_list_step (block_lines b) ([], 0, None)
  = ([], 1, if b_blank b then None else b_branch b).
Proof.
  destruct b as [p h br hf bl]. unfold block_lines.
  cbn [b_path b_head b_branch b_head_first b_blank].
  destruct hf, h as [x|], br as [y|], bl; cbn [fold_left app opt_line];
    rewrite worktree_list_worktree_line;
    rewrite ?worktree_list_head_line, ?worktree_list_branch_line, ?worktree_list_head_line,
      ?worktree_list_blank_line; reflexivity.
Qed.

Lemma worktree_list_blocks (bs : list block) (brs : list str) (k : nat) (cur : option str) :
  1 <= k -> bs <> [] ->
  worktree_list_finish (fold_left worktree_list_step (porcelain_lines bs) (brs, k, cur))
  = brs ++ branch_list cur ++ flat_map (fun b => branch_list (b_branch b)) bs.
Proof.
  revert brs k cur; induction bs as [|b bs IH]; intros brs k cur Hk Hne; [contradiction|].
  unfold porcelain_lines. cbn [map List.concat]. rewrite fold_left_app.
  rewrite worktree_list_block by exact Hk. fold (porcelain_lines bs).
  cbn [flat_map].
  destruct bs as [|b' bs'].
  - cbn [porcelain_lines map List.concat fold_left worktree_list_finish flat_map].
    replace (1 <? S k) with true by (symmetry; apply Nat.ltb_lt; lia).
    destruct (b_blank b), (b_branch b); cbn [branch_list]; rewrite ?app_nil_r, <- ?app_assoc;
      reflexivity.
  - rewrite IH by (lia || discriminate).
    destruct (b_blank b), (b_branch b); cbn [branch_list]; rewrite <- ?app_assoc; reflexivity.
Qed.

(** ** Parsers and lookups on snapshots *)

(** [find_worktree_by_path] returns the path of the first non-main
    worktree whose canonical path is the target's canonical path; the
    main worktree is never returned for its own sake. *)
Theorem find_worktree_by_path_snapshot (e : env) (b0 : block) (rest : list block) (target : path) :
  forallb block_ok (b0 :: rest) = true ->
  find_worktree_by_path e (render_porcelain (b0 :: rest)) target
  = option_map b_path
      (find_first (fun b => path_eqb (canonicalize_allow_missing e target)
                              (canonicalize_allow_missing e (path_of_str (b_path b)))) rest).
Proof.
  intro Hok. unfold find_worktree_by_path. rewrite lines_render by exact Hok.
  unfold porcelain_lines. cbn [map List.concat]. rewrite find_path_block.
  fold (porcelain_lines rest). cbn [Nat.ltb Nat.leb andb].
  apply find_path_blocks. lia.
Qed.

Lemma find_worktree_by_path_snapshot_witness :
  find_worktree_by_path (empty_env (lit "/r") None) (render_porcelain feat_snapshot)
    (path_of_str (lit "wt/feat"))
  = Some (lit "/r/wt/feat").
Proof.
  unfold feat_snapshot.
  rewrite (find_worktree_by_path_snapshot (empty_env (lit "/r") None)).
  - vm_compute. reflexivity.
  - vm_compute. reflexivity.
Defined.

(** [find_worktree_by_branch] returns the path of the first non-main
    worktree whose branch is the given name, and never the main one. *)
Theorem find_worktree_by_branch_snapshot (b0 : block) (rest : list block) (name : str) :
  forallb block_ok (b0 :: rest) = true ->
  find_worktree_by_branch (render_porcelain (b0 :: rest)) name
  = option_map b_path (find_first (fun b => branch_is b name) rest).
Proof.
  intro Hok. rewrite find_worktree_by_branch_render by exact Hok.
  apply find_branch_blocks_first. lia.
Qed.

Lemma find_worktree_by_branch_snapshot_witness :
  find_worktree_by_branch (render_porcelain feat_snapshot) (lit "main") = None.
Proof.
  unfold feat_snapshot. rewrite find_worktree_by_branch_snapshot.
  - vm_compute. reflexivity.
  - vm_compute. reflexivity.
Defined.

(** [parse_all_worktrees] returns the first block's path as the main path
    and the (path, branch) pairs of the other blocks, in order. *)
Theorem parse_all_worktrees_snapshot (b0 : block) (rest : list block) :
  forallb block_ok (b0 :: rest) = true ->
  parse_all_worktrees (render_porcelain (b0 :: rest))
  = (b_path b0, map (fun b => (b_path b, b_branch b)) rest).
Proof. apply parse_all_render. Qed.

Lemma parse_all_worktrees_snapshot_witness :
  parse_all_worktrees (render_porcelain collide_snapshot)
  = (lit "/r/main", [(lit "/r/wt/x", Some (lit "y")); (lit "/r/y", Some (lit "z"))]).
Proof.
  unfold collide_snapshot. rewrite parse_all_worktrees_snapshot.
  - reflexivity.
  - vm_compute. reflexivity.
Defined.

(** [is_main_worktree] holds exactly for "@", the main worktree's path
    string and the main worktree's branch name. *)
Theorem is_main_worktree_snapshot (b0 : block) (rest : list block) (s : str) :
  forallb block_ok (b0 :: rest) = true ->
  is_main_worktree (render_porcelain (b0 :: rest)) s
  = str_eqb s (lit "@") || str_eqb (b_path b0) s || opt_str_is (b_branch b0) s.
Proof.
  intro Hok. unfold is_main_worktree. rewrite lines_render by exact Hok.
  unfold porcelain_lines. cbn [map List.concat]. rewrite is_main_block0.
  fold (porcelain_lines rest). rewrite is_main_rest.
  destruct (str_eqb s (lit "@")); reflexivity.
Qed.

Lemma is_main_worktree_snapshot_witness :
  is_main_worktree (render_porcelain feat_snapshot) (lit "main") = true /\
  is_main_worktree (render_porcelain feat_snapshot) (lit "feat") = false.
Proof.
  unfold feat_snapshot. rewrite !is_main_worktree_snapshot by (vm_compute; reflexivity).
  split; vm_compute; reflexivity.
Defined.

(** [parse_worktree_list] lists the branches of the non-main worktrees in
    order; the main worktree's branch is listed too (first) only when
    its block is not closed by a blank line and another block follows. *)
Theorem parse_worktree_list_snapshot (b0 : block) (rest : list block) :
  forallb block_ok (b0 :: rest) = true ->
  parse_worktree_list (render_porcelain (b0 :: rest))
  = (if b_blank b0 then [] else match rest with [] => [] | _ => branch_list (b_branch b0) end)
    ++ flat_map (fun b => branch_list (b_branch b)) rest.
Proof.
  intro Hok. unfold parse_worktree_list. rewrite lines_render by exact Hok.
  unfold porcelain_lines. cbn [map List.concat]. rewrite fold_left_app, worktree_list_block0.
  fold (porcelain_lines rest).
  destruct rest as [|b rest].
  - destruct (b_blank b0), (b_branch b0); reflexivity.
  - rewrite worktree_list_blocks by (lia || discriminate).
    destruct (b_blank b0); reflexivity.
Qed.

Lemma parse_worktree_list_snapshot_witness :
  parse_worktree_list (render_porcelain collide_snapshot) = [lit "y"; lit "z"].
Proof.
  unfold collide_snapshot. rewrite parse_worktree_list_snapshot.
  - reflexivity.
  - vm_compute. reflexivity.
Defined.

(** ** Resolution and the batch removal *)

Section RmFacts.

Variable e : env.
Variable list_stdout : str.

Definition entries_ok (q : rm_queue) : Prop :=
  forall r, In r (queue_entries q) -> removal_canonical r = canonicalize_allow_missing e (removal_worktree r).

Lemma entries_ok_init : entries_ok rm_queue_init.
Proof. intros r []. Qed.

Lemma entries_ok_step (q q' : rm_queue) (t : str) :
  entries_ok q -> rm_resolve_step e list_stdout q t = Ok q' -> entries_ok q'.
Proof.
  intros Hq. unfold rm_resolve_step.
  destruct (resolve_worktree_target e t list_stdout) as [[[[c w] b] cur]|err] eqn:R;
    [|discriminate].
  apply resolve_canonical in R.
  assert (Hnew : removal_canonical (c, w, b) = canonicalize_allow_missing e (removal_worktree (c, w, b)))
    by exact R.
  unfold entries_ok, queue_entries in *.
  destruct cur, (seen_contains (q_seen q) c); intros H; injection H as <-; cbn.
  - intros r Hr. apply in_app_iff in Hr as [Hr|[<-|[]]]; [|exact Hnew].
    apply filter_In in Hr as [Hr _]. apply Hq, in_app_iff. now left.
  - intros r Hr. apply in_app_iff in Hr as [Hr|[<-|[]]]; [|exact Hnew].
    apply Hq, in_app_iff. now left.
  - exact Hq.
  - intros r Hr. rewrite <- app_assoc in Hr. apply in_app_iff in Hr as [Hr|Hr].
    + apply Hq, in_app_iff. now left.
    + destruct Hr as [<-|Hr]; [exact Hnew|]. apply Hq, in_app_iff. now right.
Qed.

Lemma entries_ok_all (targets : list str) (q q' : rm_queue) :
  entries_ok q -> rm_resolve_all e list_stdout q targets = Ok q' -> entries_ok q'.
Proof.
  revert q; induction targets as [|t ts IH]; intros q Hq H; simpl in H.
  - injection H as <-. exact Hq.
  - destruct (rm_resolve_step e list_stdout q t) as [q1|err] eqn:E; [|discriminate].
    exact (IH q1 (entries_ok_step q q1 t Hq E) H).
Qed.

Lemma seen_step (q q' : rm_queue) (t : str) :
  rm_resolve_step e list_stdout q t = Ok q' ->
  (forall x, In x (q_seen q) -> In x (q_seen q')) /\
  (forall c w b cur, resolve_worktree_target e t list_stdout = Ok (c, w, b, cur) -> In c (q_seen q')).
Proof.
  unfold rm_resolve_step.
  destruct (resolve_worktree_target e t list_stdout) as [[[[c w] b] cur]|err] eqn:R;
    [|discriminate].
  destruct cur, (seen_contains (q_seen q) c) eqn:S; intros H; injection H as <-; cbn;
    (split; [intros x Hx; rewrite ?in_app_iff; auto|]);
    intros c' w' b' cur' R'; injection R' as <- _ _ _;
    first [ apply seen_contains_iff; exact S | apply in_app_iff; right; now left ].
Qed.

Lemma seen_all (targets : list str) (q q' : rm_queue) :
  rm_resolve_all e list_stdout q targets = Ok q' ->
  (forall x, In x (q_seen q) -> In x (q_seen q')) /\
  (forall t c w b cur, In t targets ->
     resolve_worktree_target e t list_stdout = Ok (c, w, b, cur) -> In c (q_seen q')).
Proof.
  revert q; induction targets as [|t ts IH]; intros q H; simpl in H.
  - injection H as <-. split; [auto|]. intros t c w b cur [].
  - destruct (rm_resolve_step e list_stdout q t) as [q1|err] eqn:E; [|discriminate].
    destruct (seen_step q q1 t E) as [Hmono Ht]. destruct (IH q1 H) as [Hmono' Hts].
    split; [auto|]. intros t' c w b cur [<-|Hin] R; eauto.
Qed.

Lemma queue_entries_canonical (q : rm_queue) :
  Permutation.Permutation (queue_paths q) (map removal_canonical (queue_entries q)).
Proof.
  unfold queue_paths, queue_entries. rewrite map_app.
  destruct (q_current q) as [r|]; cbn [map]; [|now rewrite app_nil_r].
  apply Permutation.Permutation_app_comm.
Qed.

Lemma removed_paths_app (l1 l2 : list rm_event) :
  removed_paths (l1 ++ l2) = removed_paths l1 ++ removed_paths l2.
Proof. apply flat_map_app. Qed.

Lemma removed_paths_removed (rs : list removal) :
  removed_paths (map (fun r => Removed (removal_worktree r)) rs) = map removal_worktree rs.
Proof.
  unfold removed_paths. induction rs as [|r rs IH]; [reflexivity|].
  cbn [map flat_map app]. now rewrite IH.
Qed.

Lemma remove_all_log (rm : path -> option str -> bool) (rs : list removal) (log0 : list rm_event)
    (out : rm_outcome) (log : list rm_event) :
  remove_all rm rs log0 = (out, log) ->
  exists k, log = log0 ++ map (fun r => Removed (removal_worktree r)) (firstn k rs) /\
            (out = RmOk -> k = List.length rs) /\
            (out = RmOk \/ exists w, out = RmRemoveFailed w).
Proof.
  revert log0; induction rs as [|[[c w] b] rs IH]; intros log0 H; simpl in H.
  - injection H as <- <-. exists 0. rewrite app_nil_r. auto.
  - destruct (rm w b).
    + destruct (IH _ H) as (k & -> & Hk & Hout). exists (S k).
      cbn [firstn map]. rewrite <- app_assoc. repeat split; auto.
      intro E. rewrite (Hk E). reflexivity.
    + injection H as <- <-. exists 0. rewrite app_nil_r. repeat split; [discriminate|].
      right. eauto.
Qed.

Lemma NoDup_firstn_of {A} (k : nat) (l : list A) : NoDup l -> NoDup (firstn k l).
Proof.
  intro H. rewrite <- (firstn_skipn k l) in H. exact (NoDup_app_remove_r _ _ H).
Qed.

End RmFacts.

Lemma queue_worktrees_nodup (e : env) (list_stdout : str) (targets : list str) (q : rm_queue) :
  rm_resolve_all e list_stdout rm_queue_init targets = Ok q ->
  NoDup (map removal_worktree (queue_entries q)).
Proof.
  intro R.
  destruct (queue_inv_all e list_stdout targets rm_queue_init q (queue_inv_init e list_stdout) R)
    as (Hnd & _ & _).
  pose proof (entries_ok_all e list_stdout targets rm_queue_init q (entries_ok_init e) R) as Hent.
  apply (Permutation_NoDup (queue_entries_canonical q)) in Hnd.
  rewrite (map_ext_in _ (fun r => canonicalize_allow_missing e (removal_worktree r)) _ Hent) in Hnd.
  rewrite <- map_map in Hnd. exact (NoDup_map_inv _ _ Hnd).
Qed.

(** A resolved target's canonical path is the canonical form of the
    worktree path returned with it. *)
Theorem resolve_canonical_path (e : env) (name list_stdout : str) (c w : path)
    (b : option str) (cur : bool) :
  resolve_worktree_target e name list_stdout = Ok (c, w, b, cur) ->
  c = canonicalize_allow_missing e w.
Proof. apply resolve_canonical. Qed.

Lemma resolve_canonical_path_witness :
  path_of_str (lit "/r/wt/feat")
  = canonicalize_allow_missing (empty_env (lit "/home/u") None) (path_of_str (lit "/r/wt/feat")).
Proof.
  apply (resolve_canonical_path (empty_env (lit "/home/u") None) (lit "feat")
           (render_porcelain feat_snapshot) _ _ (Some (lit "feat")) false).
  vm_compute. reflexivity.
Defined.

(** The batch removal never removes the same worktree twice, whatever
    the targets and whichever removals fail. *)
Theorem cmd_rm_many_removes_once (rm : path -> option str -> bool) (e : env)
    (list_stdout : str) (targets : list str) (out : rm_outcome) (log : list rm_event) :
  cmd_rm_many rm e list_stdout targets = (out, log) -> NoDup (removed_paths log).
Proof.
  unfold cmd_rm_many.
  destruct (rm_resolve_all e list_stdout rm_queue_init targets) as [q|err] eqn:R;
    [|intros [= _ <-]; constructor].
  pose proof (queue_worktrees_nodup e list_stdout targets q R) as HL.
  assert (Hn : NoDup (map removal_worktree (q_non_current q))).
  { unfold queue_entries in HL. rewrite map_app in HL. exact (NoDup_app_remove_r _ _ HL). }
  destruct (remove_all rm (q_non_current q) []) as [o log1] eqn:Ra.
  destruct (remove_all_log rm _ _ _ _ Ra) as (k & Hlog1 & Hk & _).
  assert (Hpre : NoDup (removed_paths log1)).
  { rewrite Hlog1, app_nil_l, removed_paths_removed, <- firstn_map. now apply NoDup_firstn_of. }
  destruct o; try (intros [= <- <-]; exact Hpre).
  rewrite (Hk eq_refl), firstn_all in Hlog1. rewrite app_nil_l in Hlog1.
  unfold queue_entries in HL.
  destruct (q_current q) as [[[c w] b]|]; [|intros [= <- <-]; exact Hpre].
  destruct (rm w b); intros [= <- <-]; [|exact Hpre].
  rewrite removed_paths_app, Hlog1, removed_paths_removed.
  rewrite map_app in HL. exact HL.
Qed.

Lemma cmd_rm_many_removes_once_witness :
  NoDup (removed_paths (snd (cmd_rm_many (fun _ _ => true) (empty_env (lit "/home/u") None)
                              (render_porcelain feat_snapshot) [lit "feat"; lit "feat"]))).
Proof.
  apply (cmd_rm_many_removes_once (fun _ _ => true) (empty_env (lit "/home/u") None)
           (render_porcelain feat_snapshot) [lit "feat"; lit "feat"]
           (fst (cmd_rm_many (fun _ _ => true) (empty_env (lit "/home/u") None)
                   (render_porcelain feat_snapshot) [lit "feat"; lit "feat"]))).
  vm_compute. reflexivity.
Defined.

(** The main worktree's path is printed only by a successful run, as its
    last event, right after the removal of the worktree that "." resolves
    to; every earlier event is a removal. *)
Theorem cmd_rm_many_prints_main_last (rm : path -> option str -> bool) (e : env)
    (list_stdout : str) (targets : list str) (out : rm_outcome) (log : list rm_event) (m : str) :
  cmd_rm_many rm e list_stdout targets = (out, log) ->
  In (PrintedMainPath m) log ->
  out = RmOk /\ m = fst (parse_all_worktrees list_stdout) /\
  exists pre w b,
    log = pre ++ [Removed w; PrintedMainPath m] /\
    (forall ev, In ev pre -> exists w', ev = Removed w') /\
    resolve_worktree_target e (lit ".") list_stdout
    = Ok (canonicalize_allow_missing e w, w, b, true).
Proof.
  unfold cmd_rm_many.
  destruct (rm_resolve_all e list_stdout rm_queue_init targets) as [q|err] eqn:R;
    [|intros [= _ <-] []].
  destruct (queue_inv_all e list_stdout targets rm_queue_init q (queue_inv_init e list_stdout) R)
    as (_ & _ & Hcur).
  destruct (remove_all rm (q_non_current q) []) as [o log1] eqn:Ra.
  destruct (remove_all_log rm _ _ _ _ Ra) as (k & Hlog1 & _ & _).
  rewrite app_nil_l in Hlog1.
  assert (Honly : forall ev, In ev log1 -> exists w', ev = Removed w').
  { intros ev Hev. rewrite Hlog1 in Hev. apply in_map_iff in Hev as (r & <- & _). eauto. }
  assert (Hno : ~ In (PrintedMainPath m) log1).
  { intro H. destruct (Honly _ H) as [w' Hw']. discriminate. }
  destruct o; try (intros [= <- <-] H; contradiction).
  destruct (q_current q) as [[[c w] b]|] eqn:Hc; [|intros [= <- <-] H; contradiction].
  destruct (rm w b); [|intros [= <- <-] H; contradiction].
  intros [= <- <-] H.
  apply in_app_iff in H as [H|[H|[H|[]]]]; [contradiction|discriminate|].
  injection H as <-. split; [reflexivity|]. split; [reflexivity|].
  exists log1, w, b. split; [reflexivity|]. split; [exact Honly|].
  pose proof (Hcur c w b eq_refl) as Hdot.
  rewrite <- (resolve_canonical e _ _ _ _ _ _ Hdot). exact Hdot.
Qed.

Lemma cmd_rm_many_prints_main_last_witness :
  exists pre w b,
    snd (cmd_rm_many (fun _ _ => true) (empty_env (lit "/home/u") (Some (lit "/r/wt/feat")))
           (render_porcelain feat_snapshot) [lit "."])
    = pre ++ [Removed w; PrintedMainPath (lit "/r/main")] /\
    (forall ev, In ev pre -> exists w', ev = Removed w') /\
    resolve_worktree_target (empty_env (lit "/home/u") (Some (lit "/r/wt/feat"))) (lit ".")
      (render_porcelain feat_snapshot)
    = Ok (canonicalize_allow_missing (empty_env (lit "/home/u") (Some (lit "/r/wt/feat"))) w, w, b, true).
Proof.
  destruct (cmd_rm_many_prints_main_last (fun _ _ => true)
              (empty_env (lit "/home/u") (Some (lit "/r/wt/feat")))
              (render_porcelain feat_snapshot) [lit "."]
              RmOk
              [Removed (path_of_str (lit "/r/wt/feat")); PrintedMainPath (lit "/r/main")]
              (lit "/r/main")) as (_ & _ & H).
  - vm_compute. reflexivity.
  - right. left. reflexivity.
  - vm_compute in H |- *. exact H.
Defined.

(** A successful batch removal removes, for every target, a worktree
    with the target's canonical path. *)
Theorem cmd_rm_many_removes_all_targets (rm : path -> option str -> bool) (e : env)
    (list_stdout : str) (targets : list str) (log : list rm_event)
    (t : str) (c w : path) (b : option str) (cur : bool) :
  cmd_rm_many rm e list_stdout targets = (RmOk, log) ->
  In t targets -> resolve_worktree_target e t list_stdout = Ok (c, w, b, cur) ->
  exists w', In (Removed w') log /\ c = canonicalize_allow_missing e w'.
Proof.
  intros H Hin Rt. unfold cmd_rm_many in H.
  destruct (rm_resolve_all e list_stdout rm_queue_init targets) as [q|err] eqn:R;
    [|discriminate].
  destruct (queue_inv_all e list_stdout targets rm_queue_init q (queue_inv_init e list_stdout) R)
    as (_ & Hseen & _).
  pose proof (entries_ok_all e list_stdout targets rm_queue_init q (entries_ok_init e) R) as Hent.
  destruct (seen_all e list_stdout targets rm_queue_init q R) as [_ Hall].
  pose proof (Hall t c w b cur Hin Rt) as Hc. apply Hseen in Hc.
  apply (Permutation_in _ (queue_entries_canonical q)) in Hc.
  apply in_map_iff in Hc as (r & Er & Hr).
  exists (removal_worktree r). split; [|rewrite <- Er; exact (Hent r Hr)].
  destruct (remove_all rm (q_non_current q) []) as [o log1] eqn:Ra.
  destruct (remove_all_log rm _ _ _ _ Ra) as (k & Hlog1 & Hk & _).
  rewrite app_nil_l in Hlog1.
  destruct o; try discriminate.
  rewrite (Hk eq_refl), firstn_all in Hlog1.
  assert (Hn : In r (q_non_current q) -> In (Removed (removal_worktree r)) log1).
  { intro Hrn. rewrite Hlog1. apply in_map_iff. eauto. }
  unfold queue_entries in Hr. apply in_app_iff in Hr as [Hr|Hr].
  - destruct (q_current q) as [[[c0 w0] b0]|];
      [destruct (rm w0 b0)|]; try discriminate; injection H as <-;
      rewrite ?in_app_iff; auto.
  - destruct (q_current q) as [[[c0 w0] b0]|]; [|destruct Hr].
    destruct Hr as [<-|[]].
    destruct (rm w0 b0); [|discriminate].
    injection H as <-. apply in_app_iff. right. now left.
Qed.

Lemma cmd_rm_many_removes_all_targets_witness :
  exists w', In (Removed w') [Removed (path_of_str (lit "/r/wt/feat"))] /\
    path_of_str (lit "/r/wt/feat")
    = canonicalize_allow_missing (empty_env (lit "/home/u") None) w'.
Proof.
  apply (cmd_rm_many_removes_all_targets (fun _ _ => true) (empty_env (lit "/home/u") None)
           (render_porcelain feat_snapshot) [lit "feat"; lit "feat"]
           [Removed (path_of_str (lit "/r/wt/feat"))] (lit "feat")
           (path_of_str (lit "/r/wt/feat")) (path_of_str (lit "/r/wt/feat")) (Some (lit "feat")) false).
  - vm_compute. reflexivity.
  - left. reflexivity.
  - vm_compute. reflexivity.
Defined.

(** ** Relative paths of the completion *)

Lemma strip_path_prefix_app (root x : path) : strip_path_prefix root (root ++ x) = Some x.
Proof.
  induction root as [|c root IH]; [reflexivity|]. cbn [app strip_path_prefix].
  now rewrite component_eqb_refl.
Qed.

Lemma skipn_length_app {A} (l x : list A) : skipn (List.length l) (l ++ x) = x.
Proof. induction l as [|a l IH]; [reflexivity|]. exact IH. Qed.

Lemma root_of_absolute (ps : list path) :
  ps <> [] ->
  (forall p, In p ps -> wf_path p = true /\ is_absolute p = true /\ p <> [RootDir]) ->
  exists root, calculate_worktree_root_from_paths ps = Some root /\
               forall p, In p ps -> p = root ++ skipn (List.length root) p.
Proof.
  intros Hne Hps.
  destruct ps as [|p1 [|p2 ps]]; [contradiction| |].
  - destruct (Hps p1 (or_introl eq_refl)) as (Hwf & Habs & Hroot).
    assert (Hp1 : p1 <> []) by (intro E; subst; discriminate).
    destruct (parent_of_wf p1 Hwf Hp1 Hroot) as (q & c & Hpar & Eq).
    exists q. split; [exact Hpar|]. intros p [<-|[]].
    rewrite Eq at 2. rewrite skipn_length_app. exact Eq.
  - destruct (Hps p1 (or_introl eq_refl)) as (Hwf & _ & _).
    pose proof (root_of_many p1 p2 ps Hwf) as H.
    destruct (calculate_worktree_root_from_paths (p1 :: p2 :: ps)) as [r|].
    + exists r. split; [reflexivity|]. destruct H as (_ & Hcp & _).
      intros p Hp. destruct (Hcp p Hp) as [x ->]. now rewrite skipn_length_app.
    + exfalso. assert (Hc : common_prefix [RootDir] (p1 :: p2 :: ps)).
      { intros p Hp. destruct (Hps p Hp) as (_ & Habs & _).
        destruct p as [|[] t]; try discriminate. exists t. reflexivity. }
      discriminate (H _ Hc).
Qed.

(** Every non-main worktree of a snapshot gets a relative-path completion
    candidate: when the non-main paths are absolute and none is the root
    itself, their root exists, lies above each of them, and the candidates
    are the remainders below it, one per non-main worktree, in order. *)
Theorem relative_path_candidates_snapshot (fs : path -> option path) (b0 : block) (rest : list block) :
  forallb block_ok (b0 :: rest) = true -> rest <> [] ->
  (forall b, In b rest -> is_absolute (path_of_str (b_path b)) = true /\
                          path_of_str (b_path b) <> [RootDir]) ->
  exists root,
    calculate_worktree_root_from_paths (map (fun b => path_of_str (b_path b)) rest) = Some root /\
    relative_path_candidates fs (render_porcelain (b0 :: rest))
    = map (fun b => skipn (List.length root) (path_of_str (b_path b))) rest /\
    forall b, In b rest -> path_of_str (b_path b) = root ++ skipn (List.length root) (path_of_str (b_path b)).
Proof.
  intros Hok Hne Habs.
  destruct (root_of_absolute (map (fun b => path_of_str (b_path b)) rest)) as (root & Hroot & Hpre).
  - destruct rest; [contradiction|discriminate].
  - intros p Hp. apply in_map_iff in Hp as (b & <- & Hb).
    destruct (Habs b Hb). split; [apply wf_path_of_str|auto].
  - exists root. split; [exact Hroot|]. split.
    + unfold relative_path_candidates.
      rewrite parse_worktree_entries_render by exact Hok.
      cbn [map skipn]. rewrite map_map. cbn [we_path block_entry]. rewrite Hroot.
      assert (Hall : forall b, In b rest -> path_of_str (b_path b) = root ++ skipn (List.length root) (path_of_str (b_path b))).
      { intros b Hb. apply Hpre, in_map_iff. eauto. }
      clear Hroot Hpre Habs Hok Hne. induction rest as [|b rest IH]; [reflexivity|].
      cbn [flat_map map we_path block_entry]. unfold calculate_relative_path.
      rewrite (Hall b (or_introl eq_refl)) at 1. rewrite strip_path_prefix_app.
      cbn [app]. f_equal. apply IH. intros b' Hb'. apply Hall. now right.
    + intros b Hb. apply Hpre, in_map_iff. eauto.
Qed.

Lemma relative_path_candidates_snapshot_witness :
  relative_path_candidates (fun _ => None) (render_porcelain collide_snapshot)
  = [path_of_str (lit "wt/x"); path_of_str (lit "y")].
Proof.
  destruct (relative_path_candidates_snapshot (fun _ => None)
              (mk_block (lit "/r/main") (Some (lit "1111111122222222")) (Some (lit "main")) true true)
              [mk_block (lit "/r/wt/x") (Some (lit "3333333344444444")) (Some (lit "y")) true true;
               mk_block (lit "/r/y") None (Some (lit "z")) false false]) as (root & Hroot & Hc & _).
  - vm_compute. reflexivity.
  - discriminate.
  - intros b [<-|[<-|[]]]; split; (vm_compute; reflexivity) || (intro E; vm_compute in E; discriminate E).
  - unfold collide_snapshot. rewrite Hc. vm_compute in Hroot. injection Hroot as <-.
    vm_compute. reflexivity.
Defined.

(** ** The template-based worktree root *)

Lemma parent_rooted_snoc (ns : list str) (n : str) :
  parent (RootDir :: map Normal (ns ++ [n])) = Some (RootDir :: map Normal ns).
Proof.
  rewrite map_app. cbn [map]. rewrite app_comm_cons.
  unfold parent. rewrite rev_unit. now rewrite rev_involutive.
Qed.

Lemma parent_n_rooted (d : nat) (ns : list str) :
  parent_n d (RootDir :: map Normal ns)
  = if d <=? List.length ns then Some (RootDir :: map Normal (firstn (List.length ns - d) ns))
    else None.
Proof.
  revert ns; induction d as [|d IH]; intro ns.
  - cbn [parent_n Nat.leb]. now rewrite Nat.sub_0_r, firstn_all.
  - destruct ns as [|n ns _] using rev_ind; [reflexivity|].
    cbn [parent_n]. rewrite parent_rooted_snoc, IH, length_app. cbn [List.length].
    rewrite Nat.add_1_r. cbn [Nat.leb].
    destruct (d <=? List.length ns) eqn:Hd; [|reflexivity].
    apply Nat.leb_le in Hd. rewrite firstn_app.
    replace (S (List.length ns) - S d - List.length ns) with 0 by lia.
    replace (S (List.length ns) - S d) with (List.length ns - d) by lia.
    now rewrite firstn_O, app_nil_r.
Qed.

(** For an absolute path of [n] names and a template whose [{branch}]
    sits [d] names deep, [calculate_worktree_root] goes up exactly [d]
    levels when [d <= n] (the worktree is then the root followed by the
    last [d] names) and fails when [d > n]. *)
Theorem calculate_worktree_root_levels (ns : list str) (template : str) :
  let d := calculate_branch_depth template in
  calculate_worktree_root (RootDir :: map Normal ns) template
  = (if d <=? List.length ns
     then Some (RootDir :: map Normal (firstn (List.length ns - d) ns)) else None) /\
  (d <= List.length ns ->
   calculate_relative_path (RootDir :: map Normal ns)
     (RootDir :: map Normal (firstn (List.length ns - d) ns))
   = Some (map Normal (skipn (List.length ns - d) ns))).
Proof.
  intro d. split; [apply parent_n_rooted|].
  intros _. unfold calculate_relative_path.
  set (k := List.length ns - d).
  assert (E : RootDir :: map Normal ns
              = (RootDir :: map Normal (firstn k ns)) ++ map Normal (skipn k ns)).
  { rewrite <- app_comm_cons, <- map_app, firstn_skipn. reflexivity. }
  rewrite E at 1. apply strip_path_prefix_app.
Qed.

Lemma calculate_worktree_root_levels_witness :
  calculate_worktree_root (path_of_str (lit "/Users/test/repo-worktrees/feature"))
    (lit "../{repo}-worktrees/{branch}")
  = Some (path_of_str (lit "/Users/test/repo-worktrees")) /\
  calculate_relative_path (path_of_str (lit "/Users/test/repo-worktrees/feature"))
    (path_of_str (lit "/Users/test/repo-worktrees"))
  = Some (path_of_str (lit "feature")).
Proof.
  destruct (calculate_worktree_root_levels
              [lit "Users"; lit "test"; lit "repo-worktrees"; lit "feature"]
              (lit "../{repo}-worktrees/{branch}")) as [H1 H2].
  split.
  - vm_compute in H1 |- *. exact H1.
  - assert (Hd : calculate_branch_depth (lit "../{repo}-worktrees/{branch}") <= 4)
      by (vm_compute; lia).
    specialize (H2 Hd). vm_compute in H2 |- *. exact H2.
Defined.

(** ** [canonicalize_allow_missing] *)

Lemma walk_up_nothing (fs : path -> option path) (r : list component) (tail : list str) (norm : path) :
  (forall q, fs q = None) -> walk_up fs r tail norm = norm.
Proof.
  intro Hfs. revert tail; induction r as [|c r IH]; intro tail; [reflexivity|].
  cbn [walk_up]. destruct c; try reflexivity; rewrite Hfs; apply IH.
Qed.

Lemma push_names (l : list str) (c : path) :
  fold_left (fun res n => push res (Normal n)) l c = c ++ map Normal l.
Proof.
  revert c; induction l as [|n l IH]; intro c; cbn [fold_left map]; [now rewrite app_nil_r|].
  rewrite IH. cbn [push]. now rewrite <- app_assoc.
Qed.

Lemma walk_up_ancestor (fs : path -> option path) (a : path) (c : path) (norm : path) :
  fs a = Some c ->
  forall tail tl,
  tail <> [] ->
  (forall k, 1 <= k < List.length tail -> fs (a ++ map Normal (firstn k tail)) = None) ->
  walk_up fs (rev (a ++ map Normal tail)) tl norm
  = fold_left (fun res n => push res (Normal n)) (rev (tl ++ rev tail)) c.
Proof.
  intros Ha tail. induction tail as [|n t IH] using rev_ind; intros tl Hne Hk; [contradiction|].
  rewrite map_app, app_assoc. cbn [map]. rewrite !rev_unit. cbn [walk_up].
  rewrite rev_involutive.
  destruct t as [|t0 t'] eqn:Et.
  - cbn [map rev app]. rewrite app_nil_r, Ha. reflexivity.
  - rewrite <- Et in *.
    assert (Hnone : fs (a ++ map Normal t) = None).
    { pose proof (Hk (List.length t)) as H. rewrite length_app in H. cbn [List.length] in H.
      rewrite firstn_app, Nat.sub_diag, firstn_O, app_nil_r, firstn_all in H.
      apply H. subst t. cbn [List.length]. lia. }
    rewrite Hnone, IH.
    + now rewrite <- app_assoc.
    + subst t. discriminate.
    + intros k Hk'. specialize (Hk k). rewrite length_app in Hk. cbn [List.length] in Hk.
      rewrite firstn_app in Hk. replace (k - List.length t) with 0 in Hk by lia.
      rewrite firstn_O, app_nil_r in Hk. apply Hk. lia.
Qed.

(** When no path exists, [canonicalize_allow_missing] is the lexical
    normalisation of the absolute path. *)
Theorem canonicalize_allow_missing_nothing_exists (e : env) (p : path) :
  (forall q, env_canonicalize e q = None) ->
  canonicalize_allow_missing e p
  = normalize_path_lexically
      (if is_absolute p then p else match env_cwd e with Some cwd => join cwd p | None => p end).
Proof.
  intro H. unfold canonicalize_allow_missing. rewrite H. apply walk_up_nothing, H.
Qed.

Lemma canonicalize_allow_missing_nothing_exists_witness :
  canonicalize_allow_missing (empty_env (lit "/r") None) (path_of_str (lit "wt/./x/../feat"))
  = normalize_path_lexically (join (path_of_str (lit "/r")) (path_of_str (lit "wt/./x/../feat"))).
Proof.
  apply (canonicalize_allow_missing_nothing_exists (empty_env (lit "/r") None)).
  intro q. reflexivity.
Defined.

(** For a missing path, [canonicalize_allow_missing] canonicalises the
    deepest existing ancestor and appends the missing names below it. *)
Theorem canonicalize_allow_missing_ancestor (e : env) (p a c : path) (tail : list str) :
  normalize_path_lexically
    (if is_absolute p then p else match env_cwd e with Some cwd => join cwd p | None => p end)
  = a ++ map Normal tail ->
  tail <> [] ->
  env_canonicalize e a = Some c ->
  (forall k, 1 <= k <= List.length tail -> env_canonicalize e (a ++ map Normal (firstn k tail)) = None) ->
  canonicalize_allow_missing e p = c ++ map Normal tail.
Proof.
  intros Hn Hne Ha Hk. unfold canonicalize_allow_missing. rewrite Hn.
  assert (Hn0 : env_canonicalize e (a ++ map Normal tail) = None).
  { pose proof (Hk (List.length tail)) as H. rewrite firstn_all in H.
    apply H. destruct tail; [contradiction|]. cbn [List.length]. lia. }
  rewrite Hn0, (walk_up_ancestor _ a c _ Ha tail [] Hne).
  - rewrite app_nil_l, rev_involutive. apply push_names.
  - intros k Hk'. apply Hk. lia.
Qed.

Lemma canonicalize_allow_missing_ancestor_witness :
  canonicalize_allow_missing
    {| env_cwd := Some (path_of_str (lit "/home/u"));
       env_canonicalize := fun q => if path_eqb q (path_of_str (lit "/tmp")) then Some (path_of_str (lit "/private/tmp")) else None;
       env_toplevel := None |}
    (path_of_str (lit "/tmp/a/b"))
  = path_of_str (lit "/private/tmp") ++ map Normal [lit "a"; lit "b"].
Proof.
  apply (canonicalize_allow_missing_ancestor _ _ (path_of_str (lit "/tmp"))).
  - vm_compute. reflexivity.
  - discriminate.
  - vm_compute. reflexivity.
  - intros k Hk. cbn [List.length] in Hk.
    destruct k as [|[|[|k]]]; [lia| | |lia]; vm_compute; reflexivity.
Defined.

(** ** Lexical normalisation *)

Lemma normalize_fold_rooted (q acc : path) :
  (exists ns, acc = RootDir :: map Normal ns) ->
  exists ns, fold_left normalize_step q acc = RootDir :: map Normal ns.
Proof.
  revert acc; induction q as [|c q IH]; intros acc (ns & ->); [exists ns; reflexivity|].
  cbn [fold_left]. apply IH. destruct c as [| | |n]; cbn [normalize_step push].
  - exists []. reflexivity.
  - exists ns. reflexivity.
  - destruct ns as [|n ns _] using rev_ind; [exists []; reflexivity|].
    exists ns. rewrite map_app. cbn [map]. rewrite app_comm_cons. apply pop_app_normal.
  - exists (ns ++ [n]). now rewrite map_app.
Qed.

(** [normalize_path_lexically] never leaves a "." or ".." component: its
    result is an optional root followed by names, and it keeps the root
    of an absolute path. *)
Theorem normalize_path_lexically_shape (p : path) :
  (exists (rooted : bool) (ns : list str),
     normalize_path_lexically p = (if rooted then [RootDir] else []) ++ map Normal ns) /\
  (is_absolute p = true -> exists ns, normalize_path_lexically p = RootDir :: map Normal ns).
Proof.
  split.
  - apply normalize_fold_shape. exists false, []. reflexivity.
  - destruct p as [|c p]; [discriminate|]. destruct c; try discriminate. intros _.
    unfold normalize_path_lexically. cbn [fold_left normalize_step push].
    apply normalize_fold_rooted. exists []. reflexivity.
Qed.

Lemma normalize_path_lexically_shape_witness :
  exists ns, normalize_path_lexically (path_of_str (lit "/a/./b/../../../c"))
             = RootDir :: map Normal ns.
Proof.
  apply (proj2 (normalize_path_lexically_shape (path_of_str (lit "/a/./b/../../../c")))).
  reflexivity.
Defined.

(** ** The active marker of [parse_worktree_entries] *)

Lemma filter_none {A} (f : A -> bool) (l : list A) :
  (forall x, In x l -> f x = false) -> filter f l = [].
Proof.
  induction l as [|x l IH]; intro H; [reflexivity|]. cbn [filter].
  rewrite (H x (or_introl eq_refl)). apply IH. intros y Hy. exact (H y (or_intror Hy)).
Qed.

Lemma active_at_most_one (fs : path -> option path) (ca : option path) (bs : list block) :
  (forall b, In b bs -> fs (path_of_str (b_path b)) <> None) ->
  NoDup (map (fun b => fs (path_of_str (b_path b))) bs) ->
  List.length (filter we_is_active (map (block_entry fs ca) bs)) <= 1.
Proof.
  induction bs as [|b bs IH]; intros Hex Hnd; cbn [map filter List.length]; [lia|].
  inversion Hnd as [|x l Hnin Hnd' Eq]; subst.
  assert (IH' := IH (fun b' H => Hex b' (or_intror H)) Hnd').
  unfold block_entry at 1. cbn [we_is_active].
  destruct (is_path_active fs (b_path b) ca) eqn:Ea; [|exact IH'].
  cbn [List.length].
  enough (filter we_is_active (map (block_entry fs ca) bs) = []) as -> by (cbn; lia).
  unfold is_path_active in Ea. destruct ca as [act|]; [|discriminate].
  destruct (fs (path_of_str (b_path b))) as [c|] eqn:Ec;
    [|exfalso; exact (Hex b (or_introl eq_refl) Ec)].
  apply path_eqb_eq in Ea. subst act.
  apply filter_none. intros en Hin. apply in_map_iff in Hin as (b' & <- & Hb').
  unfold block_entry, is_path_active. cbn [we_is_active].
  destruct (fs (path_of_str (b_path b'))) as [c'|] eqn:Ec';
    [|exfalso; exact (Hex b' (or_intror Hb') Ec')].
  destruct (path_eqb c' c) eqn:E; [|reflexivity].
  apply path_eqb_eq in E. subst c'. exfalso. apply Hnin.
  apply in_map_iff. exists b'. split; [cbv beta; congruence|exact Hb'].
Qed.

(** [parse_worktree_entries] marks no entry active without an active
    path; with one, it marks at most one entry active when every
    worktree path exists and no two share a canonical path. *)
Theorem parse_worktree_entries_active (fs : path -> option path) (bs : list block)
    (active_path : option path) :
  forallb block_ok bs = true ->
  (active_path = None ->
   forall en, In en (parse_worktree_entries fs (render_porcelain bs) active_path) ->
   we_is_active en = false) /\
  ((forall b, In b bs -> fs (path_of_str (b_path b)) <> None) ->
   NoDup (map (fun b => fs (path_of_str (b_path b))) bs) ->
   List.length (filter we_is_active (parse_worktree_entries fs (render_porcelain bs) active_path)) <= 1).
Proof.
  intro Hok. rewrite (parse_worktree_entries_render fs bs active_path Hok). split.
  - intros -> en Hin. apply in_map_iff in Hin as (b & <- & _). reflexivity.
  - apply active_at_most_one.
Qed.

Lemma parse_worktree_entries_active_witness :
  (forall en, In en (parse_worktree_entries (fun _ => None) (render_porcelain feat_snapshot) None) ->
   we_is_active en = false) /\
  List.length (filter we_is_active
    (parse_worktree_entries (fun p => Some p) (render_porcelain feat_snapshot)
       (Some (path_of_str (lit "/r/wt/feat"))))) <= 1.
Proof.
  split.
  - apply (proj1 (parse_worktree_entries_active (fun _ => None) feat_snapshot None
                    ltac:(vm_compute; reflexivity)) eq_refl).
  - apply (proj2 (parse_worktree_entries_active (fun p => Some p) feat_snapshot
                    (Some (path_of_str (lit "/r/wt/feat"))) ltac:(vm_compute; reflexivity))).
    + intros b _. discriminate.
    + vm_compute. repeat constructor; cbn; intros H; repeat destruct H as [H|H]; try discriminate; exact H.
Defined.
